(** * GenerativeAgentsCN tools: key filter and location-coordinate extractor

    A shallow embedding of [tools/delete_sub_addr.py] and
    [tools/gen_addr_map.py], and the properties of the two scripts.

    - Python [str] values are sequences of Unicode code points ([pystr]).
    - Parsed JSON documents are the values [json.load] returns ([json]);
      an object is the insertion-ordered item list of its [dict].
    - [LocationCoordDict] accumulators are finite maps from location path
      to coordinate list.
    - [print] is modelled by the list of messages a function emits.
      Standard output encodes as UTF-8, Python's default: a text can be
      printed unless it holds a surrogate code point, and [print] raises
      [UnicodeEncodeError] on one that does. Paths handed to the functions
      are taken to be printable, as the constants of the two scripts are;
      where a path is read from the file system its printing is modelled
      in the script body. *)

From Stdlib Require Import ZArith NArith List Bool Lia String Ascii.
From Stdlib Require Import Floats.SpecFloat.
From stdpp Require Import base option list gmap sorting.

Set Warnings "-register-all".
Local Open Scope N_scope.

(** ** Python strings *)

Definition pystr := list N.

(** An ASCII literal as a Python string. *)
Definition py (s : string) : pystr :=
  N_of_ascii <$> list_ascii_of_string s.

(** The delimiter ["->"] both scripts are written around. *)
Definition arrow : pystr := py "->".

(** [s.startswith(p)] *)
Fixpoint startswith (p s : pystr) : bool :=
  match p, s with
  | [], _ => true
  | _ :: _, [] => false
  | a :: p', b :: s' => (a =? b) && startswith p' s'
  end.

(** [s.endswith(p)] *)
Definition endswith (p s : pystr) : bool :=
  startswith (rev p) (rev s).

(** [sub in s] on strings: [sub] occurs at some position of [s]. *)
Fixpoint contains (sub s : pystr) : bool :=
  startswith sub s ||
  match s with
  | [] => false
  | _ :: s' => contains sub s'
  end.

(** [sep.join(parts)] *)
Fixpoint join (sep : pystr) (parts : list pystr) : pystr :=
  match parts with
  | [] => []
  | p :: rest =>
      match rest with
      | [] => p
      | _ :: _ => p ++ sep ++ join sep rest
      end
  end.

(** [c.isspace()] for a single code point: the white-space table of
    CPython ([_PyUnicode_IsWhitespace]). *)
Definition isspace (c : N) : bool :=
  ((9 <=? c) && (c <=? 13)) || ((28 <=? c) && (c <=? 32))
  || (c =? 133) || (c =? 160) || (c =? 5760)
  || ((8192 <=? c) && (c <=? 8202))
  || (c =? 8232) || (c =? 8233) || (c =? 8239) || (c =? 8287)
  || (c =? 12288).

Fixpoint lstrip (s : pystr) : pystr :=
  match s with
  | [] => []
  | c :: s' => if isspace c then lstrip s' else s
  end.

(** [s.strip()] *)
Definition strip (s : pystr) : pystr :=
  rev (lstrip (rev (lstrip s))).

(** [s.split(sep)] for a non-empty [sep]: scan from the left, cut at every
    occurrence of [sep] and resume after it. [skip] counts the code points
    of a matched separator still to be passed over. *)
Fixpoint split_aux (sep : pystr) (skip : nat) (cur s : pystr) : list pystr :=
  match s with
  | [] => [rev cur]
  | c :: s' =>
      match skip with
      | S n => split_aux sep n cur s'
      | O =>
          if startswith sep s
          then rev cur :: split_aux sep (length sep - 1) [] s'
          else split_aux sep 0 (c :: cur) s'
      end
  end.

Definition split (sep s : pystr) : list pystr := split_aux sep 0 [] s.

(** A text that UTF-8 can encode: no code point is a surrogate. *)
Definition surrogate (c : N) : bool := (55296 <=? c) && (c <=? 57343).

Definition printable (s : pystr) : bool := forallb (λ c, negb (surrogate c)) s.

(** [a <= b] on strings: lexicographic on code points. *)
Fixpoint str_le (a b : pystr) : bool :=
  match a, b with
  | [], _ => true
  | _ :: _, [] => false
  | x :: a', y :: b' =>
      if x <? y then true else if x =? y then str_le a' b' else false
  end.

(** ** JSON values as [json.load] returns them *)

Inductive json : Type :=
  | JNull
  | JBool (b : bool)
  | JInt (z : Z)
  | JFloat (f : spec_float)
  | JStr (s : pystr)
  | JList (l : list json)
  | JObj (items : list (pystr * json)).

(** Induction over nested values. *)
Section json_nested_ind.
Variable P : json → Prop.
Hypothesis Hnull : P JNull.
Hypothesis Hbool : ∀ b, P (JBool b).
Hypothesis Hint : ∀ z, P (JInt z).
Hypothesis Hfloat : ∀ f, P (JFloat f).
Hypothesis Hstr : ∀ s, P (JStr s).
Hypothesis Hlist : ∀ l, Forall P l → P (JList l).
Hypothesis Hobj : ∀ items, Forall (λ kv, P kv.2) items → P (JObj items).

Fixpoint json_nested_ind (v : json) : P v :=
    match v with
    | JNull => Hnull
    | JBool b => Hbool b
    | JInt z => Hint z
    | JFloat f => Hfloat f
    | JStr s => Hstr s
    | JList l =>
        Hlist l ((fix go (l : list json) : Forall P l :=
                    match l with
                    | [] => Forall_nil_2 P
                    | x :: l' => Forall_cons_2 P x l' (json_nested_ind x) (go l')
                    end) l)
    | JObj items =>
        Hobj items
          ((fix go (l : list (pystr * json)) : Forall (λ kv, P kv.2) l :=
              match l with
              | [] => Forall_nil_2 _
              | kv :: l' =>
                  Forall_cons_2 (λ kv, P kv.2) kv l' (json_nested_ind kv.2) (go l')
              end) items)
    end.
End json_nested_ind.

(** ** Python dictionaries held inside JSON values

    The items of a [dict] in insertion order. *)

(** [d.get(k)] *)
Fixpoint dict_get {V} (d : list (pystr * V)) (k : pystr) : option V :=
  match d with
  | [] => None
  | (k', v) :: d' => if decide (k' = k) then Some v else dict_get d' k
  end.

(** [d[k] = v]: overwrite in place, or append a new item. *)
Fixpoint dict_set {V} (k : pystr) (v : V) (d : list (pystr * V))
  : list (pystr * V) :=
  match d with
  | [] => [(k, v)]
  | (k', v') :: d' =>
      if decide (k' = k) then (k', v) :: d' else (k', v') :: dict_set k v d'
  end.

(** ** tools/delete_sub_addr.py *)

(** The loop [for key, value in json_data.items()] of
    [remove_keys_with_arrow], with [f] the recursive call. *)
Definition clean_items (f : json → json)
  : list (pystr * json) → list (pystr * json) → list (pystr * json) :=
  fix loop items cleaned_dict :=
    match items with
    | [] => cleaned_dict
    | (key, value) :: rest =>
        if negb (contains arrow key)
        then loop rest (dict_set key (f value) cleaned_dict)
        else loop rest cleaned_dict
    end.

(** [remove_keys_with_arrow(json_data)] *)
Fixpoint remove_keys_with_arrow (json_data : json) : json :=
  match json_data with
  | JObj items => JObj (clean_items remove_keys_with_arrow items [])
  | JList l => JList (remove_keys_with_arrow <$> l)
  | _ => json_data
  end.

(** The filter as the specification words it: drop every entry whose key
    contains the delimiter, keep the others in place with their values
    filtered in turn, map lists element by element, leave scalars alone. *)
Definition kept_items (f : json → json)
  : list (pystr * json) → list (pystr * json) :=
  fix go items :=
    match items with
    | [] => []
    | (key, value) :: rest =>
        if contains arrow key then go rest else (key, f value) :: go rest
    end.

Fixpoint key_filter_spec (v : json) : json :=
  match v with
  | JObj items => JObj (kept_items key_filter_spec items)
  | JList l => JList (key_filter_spec <$> l)
  | _ => v
  end.

(** Every object of [v], at any depth, has pairwise distinct keys: what
    holds of every value built from Python [dict]s. *)
Fixpoint unique_keys (v : json) : bool :=
  match v with
  | JObj items =>
      bool_decide (NoDup items.*1) && forallb (λ kv, unique_keys kv.2) items
  | JList l => forallb unique_keys l
  | _ => true
  end.

(** No object of [v], at any depth, has a key containing the delimiter. *)
Fixpoint arrow_free (v : json) : bool :=
  match v with
  | JObj items =>
      forallb (λ kv, negb (contains arrow kv.1) && arrow_free kv.2) items
  | JList l => forallb arrow_free l
  | _ => true
  end.

Definition is_scalar (v : json) : bool :=
  match v with
  | JObj _ | JList _ => false
  | _ => true
  end.

(** What opening and parsing a file gives. *)
Inductive file_content : Type :=
  | Unreadable              (* [open] or decoding raises *)
  | NotJson                 (* [json.load] raises [JSONDecodeError] *)
  | Loaded (data : json).

(** The environment of one run of [process_json_file]: what the file
    system and the operator answer. *)
Record filter_env : Type := {
  input_exists : bool;      (* [os.path.exists(input_file)] *)
  backup_ok : bool;         (* the copy to the backup file succeeds *)
  answered_yes : bool;      (* [confirm.lower() == 'y'] at the prompt *)
  input_content : file_content;
  open_ok : bool;           (* [open(output_file, 'w')] succeeds *)
  disk_ok : bool            (* the device takes all that is written *)
}.

(** What a run has done to the output file: [open(..., 'w')] empties the
    file before anything is written to it. *)
Inductive output_state : Type :=
  | NotOpened
  | Truncated               (* emptied, and written in part at most *)
  | Dumped (data : json).

(** [json.dump(..., ensure_ascii=False)] into a file opened as UTF-8 writes
    every string and key as it is, and raises on a surrogate. *)
Fixpoint json_encodable (v : json) : bool :=
  match v with
  | JStr s => printable s
  | JList l => forallb json_encodable l
  | JObj items =>
      forallb (λ kv, printable kv.1 && json_encodable kv.2) items
  | _ => true
  end.

Inductive filter_message : Type :=
  | FErrMissing | FBackedUp | FWarnBackupFailed | FReadOk
  | FErrInvalidJson | FErrReadFailed | FProcessing | FDone | FErrWriteFailed.

(** [process_json_file(input_file, output_file, backup_original)]:
    the returned flag, the printed messages and what has become of the
    output file. [same_file] is [input_file == output_file] after the
    default is filled in. *)
Definition process_json_file (env : filter_env) (same_file backup_original : bool)
  : bool * list filter_message * output_state :=
  if negb (input_exists env) then (false, [FErrMissing], NotOpened)
  else
    let backup : option (list filter_message) :=
      if backup_original && same_file then
        if backup_ok env then Some [FBackedUp]
        else if answered_yes env then Some [FWarnBackupFailed] else None
      else Some [] in
    match backup with
    | None => (false, [FWarnBackupFailed], NotOpened)
    | Some out =>
        match input_content env with
        | NotJson => (false, out ++ [FErrInvalidJson], NotOpened)
        | Unreadable => (false, out ++ [FErrReadFailed], NotOpened)
        | Loaded data =>
            let cleaned_data := remove_keys_with_arrow data in
            if negb (open_ok env)
            then (false, out ++ [FReadOk; FProcessing; FErrWriteFailed],
                  NotOpened)
            else if disk_ok env && json_encodable cleaned_data
            then (true, out ++ [FReadOk; FProcessing; FDone],
                  Dumped cleaned_data)
            else (false, out ++ [FReadOk; FProcessing; FErrWriteFailed],
                  Truncated)
        end
    end.

(** ** tools/gen_addr_map.py *)

(** The values for which [isinstance(c, int)] holds: [int] objects and,
    [bool] being a subclass of [int], [True] and [False]. *)
Inductive pyint : Type :=
  | PInt (z : Z)
  | PBool (b : bool).

Definition int_value (i : pyint) : Z :=
  match i with
  | PInt z => z
  | PBool b => if b then 1%Z else 0%Z
  end.

(** [a == b] on such values. *)
Definition int_eqb (a b : pyint) : bool := (int_value a =? int_value b)%Z.

(** A stored coordinate: the list [coord.copy()]. *)
Definition coordinate := list pyint.

(** [tuple(c1) == tuple(c2)] *)
Fixpoint tuple_eqb (c1 c2 : coordinate) : bool :=
  match c1, c2 with
  | [], [] => true
  | a :: c1', b :: c2' => int_eqb a b && tuple_eqb c1' c2'
  | _, _ => false
  end.

(** [coord_tuple in [tuple(c) for c in coords]] *)
Definition coord_in (c : coordinate) (coords : list coordinate) : bool :=
  existsb (tuple_eqb c) coords.

Abbreviation LocationCoordDict := (gmap pystr (list coordinate)).

(** [isinstance(c, int)], with the value when it holds. *)
Definition as_int (c : json) : option pyint :=
  match c with
  | JInt z => Some (PInt z)
  | JBool b => Some (PBool b)
  | _ => None
  end.

(** The test of line 28, negated:
    [isinstance(coord, list) and len(coord) == 2
     and all(isinstance(c, int) for c in coord)]. *)
Definition as_coord (coord : json) : option coordinate :=
  match coord with
  | JList cs => if bool_decide (length cs = 2%nat) then mapM as_int cs else None
  | _ => None
  end.

Definition as_str (a : json) : option pystr :=
  match a with
  | JStr s => Some s
  | _ => None
  end.

(** The test of line 34, negated:
    [isinstance(address, list) and len(address) != 0
     and all(isinstance(a, str) for a in address)]. *)
Definition as_address (address : json) : option (list pystr) :=
  match address with
  | JList l => if bool_decide (length l = 0%nat) then None else mapM as_str l
  | _ => None
  end.

(** Python truth value, for [if not tiles]. *)
Definition truthy (v : json) : bool :=
  match v with
  | JNull => false
  | JBool b => b
  | JInt z => negb (z =? 0)%Z
  | JFloat (S754_zero _) => false
  | JFloat _ => true
  | JStr s => negb (bool_decide (s = []))
  | JList l => negb (bool_decide (l = []))
  | JObj items => negb (bool_decide (items = []))
  end.

Inductive message : Type :=
  | WarnNoTiles (json_path : pystr)
  | WarnBadCoord (json_path : pystr) (tile_idx : nat) (coord : json)
  | ErrInvalidJson (json_path : pystr)
  | ErrFailed (json_path : pystr)
  | Processing (n : nat) (json_path : pystr)
  | NothingExtracted
  | PrintedEntry (i : nat) (location_path : pystr) (coords : list coordinate).

(** Lines 44-50, for one [full_path]. *)
Definition add_coord (full_path : pystr) (c : coordinate)
    (location_coords : LocationCoordDict) : LocationCoordDict :=
  let location_coords :=
    match location_coords !! full_path with
    | None => <[full_path := []]> location_coords
    | Some _ => location_coords
    end in
  let coords := default [] (location_coords !! full_path) in
  if coord_in c coords then location_coords
  else <[full_path := coords ++ [c]]> location_coords.

(** Lines 38-50: [for level in address]. *)
Fixpoint address_loop (c : coordinate) (current_path address : list pystr)
    (location_coords : LocationCoordDict) : LocationCoordDict :=
  match address with
  | [] => location_coords
  | level :: rest =>
      let current_path := current_path ++ [strip level] in
      let full_path := join arrow current_path in
      address_loop c current_path rest (add_coord full_path c location_coords)
  end.

(** Whether the warning of line 29 can be printed. [{coord}] formats a
    string as it is; a list, a [dict] or a number is formatted by [repr],
    which writes every surrogate inside it as an escape. *)
Definition warning_prints (coord : json) : bool :=
  match coord with
  | JStr s => printable s
  | _ => true
  end.

(** One iteration of [for tile_idx, tile in enumerate(tiles, 1)]. *)
Inductive tile_outcome : Type :=
  | TileDone (location_coords : LocationCoordDict) (out : list message)
  | TileRaised.             (* [tile.get] on a value that is no [dict], or
                               [print] on a warning it cannot encode *)

Definition process_tile (json_path : pystr) (tile_idx : nat) (tile : json)
    (location_coords : LocationCoordDict) : tile_outcome :=
  match tile with
  | JObj t =>
      let coord := default (JList []) (dict_get t (py "coord")) in
      match as_coord coord with
      | None =>
          if warning_prints coord
          then TileDone location_coords [WarnBadCoord json_path tile_idx coord]
          else TileRaised
      | Some c =>
          let address := default (JList []) (dict_get t (py "address")) in
          match as_address address with
          | None => TileDone location_coords []
          | Some a => TileDone (address_loop c [] a location_coords) []
          end
      end
  | _ => TileRaised
  end.

(** The loop over the tiles; an exception leaves it for the handler of
    line 54, which reports and returns what was collected so far. *)
Fixpoint tiles_loop (json_path : pystr) (tile_idx : nat) (tiles : list json)
    (location_coords : LocationCoordDict) : LocationCoordDict * list message :=
  match tiles with
  | [] => (location_coords, [])
  | tile :: rest =>
      match process_tile json_path tile_idx tile location_coords with
      | TileRaised => (location_coords, [ErrFailed json_path])
      | TileDone location_coords out =>
          let '(result, out') :=
            tiles_loop json_path (S tile_idx) rest location_coords in
          (result, out ++ out')
      end
  end.

(** [extract_location_coords_from_json(json_path)], given what reading and
    parsing the file at [json_path] gives. A truthy [tiles] that is no list
    raises: [enumerate] rejects a number, and the elements of a string or
    the keys of a [dict] are strings, which have no [get]. *)
Definition extract_location_coords_from_json (json_path : pystr)
    (file : file_content) : LocationCoordDict * list message :=
  match file with
  | Unreadable => (∅, [ErrFailed json_path])
  | NotJson => (∅, [ErrInvalidJson json_path])
  | Loaded (JObj data) =>
      let tiles := default (JList []) (dict_get data (py "tiles")) in
      if negb (truthy tiles) then (∅, [WarnNoTiles json_path])
      else
        match tiles with
        | JList tiles => tiles_loop json_path 1 tiles ∅
        | _ => (∅, [ErrFailed json_path])
        end
  | Loaded _ => (∅, [ErrFailed json_path])
  end.

(** Lines 87-90: append [c] unless an equal tuple is there. *)
Definition append_new (existing : list coordinate) (c : coordinate)
  : list coordinate :=
  if coord_in c existing then existing else existing ++ [c].

(** Lines 85-90 on the list [all_location_coords[location_path]];
    [existing_coords] holds the same coordinates as tuples throughout. *)
Definition merge_coords (existing coords : list coordinate) : list coordinate :=
  fold_left append_new coords existing.

(** Lines 81-90, for one item of the per-file mapping. *)
Definition merge_path (location_path : pystr) (coords : list coordinate)
    (all_location_coords : LocationCoordDict) : LocationCoordDict :=
  <[location_path :=
      merge_coords (default [] (all_location_coords !! location_path)) coords]>
    all_location_coords.

(** Lines 80-90: [for location_path, coords in file_location_coords.items()]. *)
Definition merge_file (file_location_coords all_location_coords : LocationCoordDict)
  : LocationCoordDict :=
  map_fold merge_path all_location_coords file_location_coords.

(** One file name met by [os.walk], with the directory it is in and what
    reading it gives. *)
Record walk_entry : Type := {
  root : pystr;
  filename : pystr;
  content : file_content
}.

(** [os.path.join(root, filename)] (POSIX). *)
Definition path_join (a b : pystr) : pystr :=
  if startswith (py "/") b then b
  else if bool_decide (a = []) || endswith (py "/") a then a ++ b
  else a ++ py "/" ++ b.

Fixpoint walk_loop (entries : list walk_entry)
    (all_location_coords : LocationCoordDict) (processed_files : nat)
  : LocationCoordDict * nat * list message :=
  match entries with
  | [] => (all_location_coords, processed_files, [])
  | e :: rest =>
      if endswith (py ".json") (filename e) then
        let json_path := path_join (root e) (filename e) in
        let processed_files := S processed_files in
        let '(file_location_coords, out) :=
          extract_location_coords_from_json json_path (content e) in
        let '(result, out') :=
          walk_loop rest (merge_file file_location_coords all_location_coords)
            processed_files in
        (result, Processing processed_files json_path :: out ++ out')
      else walk_loop rest all_location_coords processed_files
  end.

(** [merge_all_location_coords(root_dir)], given the files [os.walk] meets
    under [root_dir], in the order it meets them. *)
Definition merge_all_location_coords (entries : list walk_entry)
  : LocationCoordDict * nat * list message :=
  walk_loop entries ∅ 0.

(** The sort key [(len(x.split('->')), x)] and the order of such tuples. *)
Definition sort_key (x : pystr) : nat * pystr := (length (split arrow x), x).

Definition key_le (a b : nat * pystr) : bool :=
  if (a.1 <? b.1)%nat then true
  else if (a.1 =? b.1)%nat then str_le a.2 b.2 else false.

Definition path_le (x y : pystr) : Prop := key_le (sort_key x) (sort_key y) = true.

Definition item_le (x y : pystr * list coordinate) : Prop := path_le x.1 y.1.

Global Instance path_le_dec x y : Decision (path_le x y).
Proof. unfold path_le. apply _. Defined.

Global Instance item_le_dec x y : Decision (item_le x y).
Proof. unfold item_le. apply _. Defined.

(** [sorted(location_coords.keys(), key=...)] *)
Definition sorted_paths (location_coords : LocationCoordDict) : list pystr :=
  merge_sort path_le (map_to_list location_coords).*1.

(** [print_location_coords(location_coords)]: the entries printed, in order. *)
Definition print_location_coords (location_coords : LocationCoordDict)
  : list message :=
  if bool_decide (location_coords = ∅) then [NothingExtracted]
  else
    imap (λ i location_path,
            PrintedEntry (S i) location_path
              (default [] (location_coords !! location_path)))
      (sorted_paths location_coords).

(** [save_location_coords_to_json(location_coords, output_path)]: the items
    of [sorted_location_coords] in the order [json.dump] writes them. *)
Definition save_location_coords_to_json (location_coords : LocationCoordDict)
  : list (pystr * list coordinate) :=
  merge_sort item_le (map_to_list location_coords).


(** The number of hierarchy levels the sort key counts. *)
Definition levels (x : pystr) : nat := length (split arrow x).

(** ** Vocabulary of the statements *)

(** The location path of the first [k] levels of an address. *)
Definition prefix_path (address : list pystr) (k : nat) : pystr :=
  join arrow (strip <$> take k address).

(** The integer values of a coordinate: what tuple comparison looks at. *)
Definition coord_values (c : coordinate) : list Z := int_value <$> c.

(** A coordinate without boolean components. *)
Definition int_only (c : coordinate) : bool :=
  forallb (λ i, match i with PInt _ => true | PBool _ => false end) c.

(** The paths [address_loop] visits, in order. *)
Fixpoint paths_from (current_path address : list pystr) : list pystr :=
  match address with
  | [] => []
  | level :: rest =>
      join arrow (current_path ++ [strip level])
      :: paths_from (current_path ++ [strip level]) rest
  end.

(** [c] is in the list of path [p], as the code tests it. *)
Definition has_coord (m : LocationCoordDict) (p : pystr) (c : coordinate)
  : bool :=
  coord_in c (default [] (m !! p)).

(** Every list of the mapping is non-empty, has pairwise different
    coordinates even as tuples of integer values, and holds only
    coordinates that [R] relates to its path. *)
Definition entries_ok (R : pystr → coordinate → Prop)
    (m : LocationCoordDict) : Prop :=
  ∀ p cs, m !! p = Some cs →
    cs ≠ [] ∧ NoDup (coord_values <$> cs) ∧ Forall (R p) cs.

(** The tiles of a document. *)
Definition file_tiles (file : file_content) : list json :=
  match file with
  | Loaded (JObj data) =>
      match default (JList []) (dict_get data (py "tiles")) with
      | JList tiles => tiles
      | _ => []
      end
  | _ => []
  end.

Definition is_dict (v : json) : bool :=
  match v with
  | JObj _ => true
  | _ => false
  end.

(** [tile.get('coord', [])] and [tile.get('address', [])] *)
Definition coord_field (tile : json) : json :=
  match tile with
  | JObj t => default (JList []) (dict_get t (py "coord"))
  | _ => JList []
  end.

Definition address_field (tile : json) : json :=
  match tile with
  | JObj t => default (JList []) (dict_get t (py "address"))
  | _ => JList []
  end.

(** The tiles at which the loop is left by an exception: those that are no
    [dict], and those with an invalid [coord] whose warning cannot be
    printed. The loop reaches the tiles before the first of them. *)
Definition tile_raises (tile : json) : bool :=
  negb (is_dict tile)
  || match as_coord (coord_field tile) with
     | Some _ => false
     | None => negb (warning_prints (coord_field tile))
     end.

Fixpoint reached (tiles : list json) : list json :=
  match tiles with
  | [] => []
  | tile :: rest => if tile_raises tile then [] else tile :: reached rest
  end.

Definition visited_tiles (file : file_content) : list json :=
  reached (file_tiles file).

(** A tile that passes both validations attributes its coordinate [c] to
    the path [p] of one of its address prefixes. *)
Definition tile_attributes (tile : json) (p : pystr) (c : coordinate) : Prop :=
  ∃ a k, as_coord (coord_field tile) = Some c
       ∧ as_address (address_field tile) = Some a
       ∧ (1 ≤ k ≤ length a)%nat ∧ p = prefix_path a k.

(** The files [merge_all_location_coords] opens. *)
Definition json_files (entries : list walk_entry) : list walk_entry :=
  filter (λ e, endswith (py ".json") (filename e) = true) entries.

Definition walk_attributes (entries : list walk_entry) (p : pystr)
    (c : coordinate) : Prop :=
  ∃ e tile, e ∈ json_files entries ∧ tile ∈ visited_tiles (content e)
          ∧ tile_attributes tile p c.

(** The per-file mappings [merge_all_location_coords] extracts, in order. *)
Definition file_mappings (entries : list walk_entry) : list LocationCoordDict :=
  (λ e, (extract_location_coords_from_json
           (path_join (root e) (filename e)) (content e)).1)
  <$> json_files entries.

(** The running total after merging per-file mappings in list order. *)
Definition merge_step (all_location_coords file_location_coords : LocationCoordDict)
  : LocationCoordDict :=
  merge_file file_location_coords all_location_coords.

Definition merge_mappings (mappings : list LocationCoordDict)
  : LocationCoordDict :=
  foldl merge_step ∅ mappings.

(** ** The script body of gen_addr_map.py *)

(** The scan prints the path of every [.json] file on line 74, outside any
    handler: it runs to its end when all of them can be printed. *)
Definition scan_returns (entries : list walk_entry) : bool :=
  forallb (λ e, printable (path_join (root e) (filename e)))
    (json_files entries).

(** What the file system answers to a run of the script body. *)
Record run_env : Type := {
  root_exists : bool;       (* [os.path.exists(ROOT_DIRECTORY)] *)
  save_ok : bool            (* the output file can be opened and written,
                               and its absolute path printed *)
}.

(** What a run that reaches its last line leaves: the file written, if
    any, and the statistics it prints. *)
Record run_summary : Type := {
  printed : list message;
  saved : option (list (pystr * list coordinate));
  processed_files : nat;
  total_locations : nat;
  total_coords : nat
}.

Inductive run_outcome : Type :=
  | Exit1                   (* [exit(1)] on line 146 *)
  | Crashed                 (* an exception no handler catches *)
  | Finished (r : run_summary).

(** Lines 143-168, given the files [os.walk] meets under
    [ROOT_DIRECTORY]. None of the prints of the scan, of
    [print_location_coords] and of [save_location_coords_to_json] is
    inside a handler. *)
Definition gen_addr_map_main (env : run_env) (entries : list walk_entry)
  : run_outcome :=
  if negb (root_exists env) then Exit1
  else if negb (scan_returns entries) then Crashed
  else
    let '(all_location_coords, processed, out) :=
      merge_all_location_coords entries in
    if negb (forallb printable (sorted_paths all_location_coords)) then Crashed
    else
      let summary saved_items :=
        {| printed := out ++ print_location_coords all_location_coords;
           saved := saved_items;
           processed_files := processed;
           total_locations := size all_location_coords;
           total_coords :=
             sum_list_with (λ kv, length kv.2)
               (map_to_list all_location_coords) |} in
      if bool_decide (all_location_coords = ∅) then Finished (summary None)
      else if save_ok env
      then Finished
             (summary (Some (save_location_coords_to_json all_location_coords)))
      else Crashed.


(** ** Example inputs *)

Definition example_document : json :=
  JObj [ (py "a->b", JInt 1);
         (py "c", JList [JObj [(py "->", JNull)]; JStr (py "x->y")]);
         (py "d", JObj [(py "e", JBool true); (py "f->", JObj [])]) ].

Definition tile (coord : json) (address : list json) : json :=
  JObj [(py "coord", coord); (py "address", JList address)].

Definition document (tiles : list json) : file_content :=
  Loaded (JObj [(py "tiles", JList tiles)]).

Definition tile_abc : json :=
  tile (JList [JInt 1; JInt 2]) [JStr (py "A"); JStr (py "B"); JStr (py "C")].

Definition file_a : walk_entry :=
  {| root := py "./data"; filename := py "a.json";
     content := document [tile_abc; tile_abc] |}.

Definition file_b : walk_entry :=
  {| root := py "./data/sub"; filename := py "b.json";
     content := document [tile (JList [JInt 3; JInt 4]) [JStr (py "A")];
                          tile_abc] |}.

Definition two_files : list walk_entry :=
  [ file_a;
    {| root := py "./data"; filename := py "notes.txt"; content := Unreadable |};
    file_b ].

Definition tile_no_address : json := tile (JList [JInt 1; JInt 2]) [].

Definition tile_bad_coord : json :=
  tile (JList [JInt 1; JStr (py "2")]) [JStr (py "A")].

Definition tile_bool : json :=
  tile (JList [JBool true; JBool false]) [JStr (py "A")].

(** A stored coordinate as a JSON value. *)
Definition coord_json (c : coordinate) : json :=
  JList ((λ i, match i with PInt z => JInt z | PBool b => JBool b end) <$> c).

(** A [coord] as the specification wants it: a list of two integers. *)
Definition is_integer_pair (coord : json) : bool :=
  match coord with
  | JList [JInt _; JInt _] => true
  | _ => false
  end.

Definition mapping_levels : LocationCoordDict :=
  {[ py "A->B->C" := [[PInt 1; PInt 2]];
     py "a" := [[PInt 0; PInt 0]];
     py "B->C" := [[PInt 5; PInt 6]];
     py "B" := [[PInt 5; PInt 6]; [PInt 7; PInt 8]];
     py "A->Z" := [[PInt 3; PInt 4]] ]}.

Definition mapping_x1 : LocationCoordDict :=
  {[ py "X" := [[PInt 1; PInt 1]] ]}.

Definition mapping_x12 : LocationCoordDict :=
  {[ py "X" := [[PInt 2; PInt 2]; [PInt 1; PInt 1]];
     py "X->Y" := [[PInt 2; PInt 2]] ]}.

Definition backup_refused_env : filter_env :=
  {| input_exists := true; backup_ok := false; answered_yes := false;
     input_content := Loaded example_document;
     open_ok := true; disk_ok := true |}.


Definition clean_document : json :=
  JObj [ (py "c", JList [JObj []; JStr (py "x->y")]);
         (py "d", JObj [(py "e", JBool true)]) ].


Definition mapping_family : LocationCoordDict :=
  {[ py "A->Z" := [[PInt 3; PInt 4]];
     py "B" := [[PInt 5; PInt 6]];
     py "A" := [[PInt 3; PInt 4]];
     py "A->B" := [[PInt 1; PInt 2]] ]}.


(** A [coord] that is a string holding a lone surrogate. *)
Definition tile_unprintable_coord : json :=
  tile (JStr [55296]) [JStr (py "A")].

Definition file_bool_x : walk_entry :=
  {| root := py "./data"; filename := py "a.json";
     content := document [tile (JList [JBool true; JBool false])
                            [JStr (py "X")]] |}.

Definition file_int_x : walk_entry :=
  {| root := py "./data"; filename := py "b.json";
     content := document [tile (JList [JInt 1; JInt 0]) [JStr (py "X")]] |}.


(** A file whose one tile has an address level holding a lone surrogate. *)
Definition file_unprintable_level : walk_entry :=
  {| root := py "./data"; filename := py "c.json";
     content := document [tile (JList [JInt 1; JInt 2])
                            [JStr (py "A"); JStr [55296]]] |}.

(** * Properties *)

(** ** The string operations on small inputs *)

Example split_levels :
  split arrow (py "A->B->C") = [py "A"; py "B"; py "C"]
  ∧ split arrow (py "A") = [py "A"]
  ∧ split arrow (py "a->->b") = [py "a"; py ""; py "b"]
  ∧ split arrow (py "a-->b->") = [py "a-"; py "b"; py ""].
Proof. repeat split; reflexivity. Qed.

Example join_levels :
  join arrow [py "A"; py "B"; py "C"] = py "A->B->C"
  ∧ join arrow [py "A"] = py "A"
  ∧ join arrow [] = py "".
Proof. repeat split; reflexivity. Qed.

Example strip_level :
  strip (py "  A b ") = py "A b"
  ∧ strip [12288; 26143; 28572; 9; 10] = [26143; 28572]
  ∧ strip (py "   ") = py "".
Proof. repeat split; reflexivity. Qed.

Example contains_arrow :
  contains arrow (py "A->B") = true
  ∧ contains arrow (py "A-B>") = false
  ∧ endswith (py ".json") (py "map.json") = true
  ∧ endswith (py ".json") (py "map.json.bak") = false.
Proof. repeat split; reflexivity. Qed.

Example path_join_root :
  path_join (py "./data") (py "a.json") = py "./data/a.json"
  ∧ path_join (py "./data/") (py "a.json") = py "./data/a.json".
Proof. repeat split; reflexivity. Qed.

(** ** Lists and dictionaries *)

Lemma forallb_Forall {A} (f : A → bool) (l : list A) :
  forallb f l = true ↔ Forall (λ x, f x = true) l.
Proof.
  induction l as [|x l IH]; simpl.
  - split; [constructor | done].
  - rewrite andb_true_iff, Forall_cons, IH. done.
Qed.

Lemma Forall_mp {A} (P Q : A → Prop) (l : list A) :
  Forall (λ x, P x → Q x) l → Forall P l → Forall Q l.
Proof. induction 1; inversion 1; subst; constructor; auto. Qed.

Lemma Forall_and_1 {A} (P Q : A → Prop) (l : list A) :
  Forall P l → Forall Q l → Forall (λ x, P x ∧ Q x) l.
Proof. intros. by apply Forall_and. Qed.

Lemma elem_of_dict_set_keys {V} (k : pystr) (v : V) d x :
  x ∈ (dict_set k v d).*1 ↔ x = k ∨ x ∈ d.*1.
Proof.
  induction d as [|[k' v'] d IH]; simpl.
  - rewrite list_elem_of_singleton, elem_of_nil. tauto.
  - destruct (decide (k' = k)) as [->|Hne]; simpl.
    + rewrite !elem_of_cons. tauto.
    + rewrite !elem_of_cons, IH. tauto.
Qed.

Lemma dict_set_fresh {V} (k : pystr) (v : V) d :
  k ∉ d.*1 → dict_set k v d = d ++ [(k, v)].
Proof.
  induction d as [|[k' v'] d IH]; simpl; intros Hk; [done|].
  rewrite not_elem_of_cons in Hk. destruct Hk as [Hne Hk].
  destruct (decide (k' = k)); [congruence|]. by rewrite IH.
Qed.

Lemma dict_set_NoDup {V} (k : pystr) (v : V) d :
  NoDup d.*1 → NoDup (dict_set k v d).*1.
Proof.
  induction d as [|[k' v'] d IH]; simpl; intros Hnd.
  - apply NoDup_singleton.
  - apply NoDup_cons in Hnd as [Hk' Hnd].
    destruct (decide (k' = k)) as [->|Hne]; simpl.
    + by apply NoDup_cons.
    + apply NoDup_cons. split; [|by apply IH].
      rewrite elem_of_dict_set_keys. intros [?|?]; [congruence|done].
Qed.

Lemma dict_set_Forall {V} (Q : pystr * V → Prop) k v d :
  Forall Q d → Q (k, v) → Forall Q (dict_set k v d).
Proof.
  intros Hd Hkv. induction Hd as [|[k' v'] d Hx Hd IH]; simpl.
  - by constructor.
  - destruct (decide (k' = k)) as [->|Hne]; by constructor.
Qed.

(** ** The key filter *)

Lemma unique_keys_obj items :
  unique_keys (JObj items) = true ↔
  NoDup items.*1 ∧ Forall (λ kv, unique_keys kv.2 = true) items.
Proof.
  simpl. by rewrite andb_true_iff, bool_decide_eq_true, forallb_Forall.
Qed.

Lemma arrow_free_obj items :
  arrow_free (JObj items) = true ↔
  Forall (λ kv, contains arrow kv.1 = false ∧ arrow_free kv.2 = true) items.
Proof.
  simpl. rewrite forallb_Forall. apply Forall_iff. intros [k v]. simpl.
  by rewrite andb_true_iff, negb_true_iff.
Qed.

Lemma clean_items_NoDup f items acc :
  NoDup acc.*1 → NoDup (clean_items f items acc).*1.
Proof.
  revert acc. induction items as [|[k v] items IH]; simpl; intros acc Hacc.
  - done.
  - destruct (contains arrow k); simpl; auto using dict_set_NoDup.
Qed.

Lemma clean_items_Forall (Q : pystr * json → Prop) f items acc :
  Forall Q acc →
  Forall (λ kv, contains arrow kv.1 = false → Q (kv.1, f kv.2)) items →
  Forall Q (clean_items f items acc).
Proof.
  intros Hacc Hitems. revert acc Hacc.
  induction Hitems as [|[k v] items Hkv _ IH]; simpl; intros acc Hacc.
  - done.
  - simpl in Hkv. destruct (contains arrow k); simpl; auto using dict_set_Forall.
Qed.

(** On items with pairwise distinct keys that are new to the accumulator,
    the insertion loop appends exactly the kept items. *)
Lemma clean_items_kept f g items acc :
  NoDup (acc.*1 ++ items.*1) →
  Forall (λ kv, f kv.2 = g kv.2) items →
  clean_items f items acc = acc ++ kept_items g items.
Proof.
  intros Hnd Hfg. revert acc Hnd.
  induction Hfg as [|[k v] items Hkv _ IH]; simpl; intros acc Hnd.
  - by rewrite app_nil_r.
  - simpl in Hkv. apply NoDup_app in Hnd as (Hacc & Hdisj & Hitems).
    apply NoDup_cons in Hitems as [Hk Hitems].
    assert (k ∉ acc.*1) as Hfresh.
    { intros Hin. apply (Hdisj k Hin). left. }
    destruct (contains arrow k); simpl.
    + apply IH. apply NoDup_app. split_and!; [done| |done].
      intros x Hx Hx'. apply (Hdisj x Hx). by right.
    + rewrite dict_set_fresh by done. rewrite IH.
      * by rewrite <- app_assoc, Hkv.
      * rewrite fmap_app. simpl. apply NoDup_app. split_and!; [|
          |done].
        -- apply NoDup_app. split_and!; [done| |apply NoDup_singleton].
           intros x Hx Hx'. apply list_elem_of_singleton in Hx'. by subst.
        -- intros x Hx Hx'. apply elem_of_app in Hx as [Hx|Hx].
           ++ apply (Hdisj x Hx). by right.
           ++ apply list_elem_of_singleton in Hx. by subst.
Qed.

Lemma remove_keys_refines_spec v :
  unique_keys v = true → remove_keys_with_arrow v = key_filter_spec v.
Proof.
  induction v as [| | | | |l IH|items IH] using json_nested_ind;
    intros Hu; try done.
  - simpl. f_equal. simpl in Hu. apply forallb_Forall in Hu.
    apply Forall_fmap_ext_1. exact (Forall_mp _ _ _ IH Hu).
  - apply unique_keys_obj in Hu as [Hnd Hu]. simpl. f_equal.
    rewrite (clean_items_kept _ key_filter_spec); [done|done|].
    exact (Forall_mp _ _ _ IH Hu).
Qed.

Lemma remove_keys_unique_keys v : unique_keys (remove_keys_with_arrow v) = true.
Proof.
  induction v as [| | | | |l IH|items IH] using json_nested_ind; try done.
  - simpl. apply forallb_Forall, Forall_fmap. done.
  - apply unique_keys_obj. split.
    + apply clean_items_NoDup. constructor.
    + apply (clean_items_Forall (λ kv, unique_keys kv.2 = true)); [constructor|].
      eapply Forall_impl; [exact IH|]. simpl. auto.
Qed.

Lemma remove_keys_arrow_free v : arrow_free (remove_keys_with_arrow v) = true.
Proof.
  induction v as [| | | | |l IH|items IH] using json_nested_ind; try done.
  - simpl. apply forallb_Forall, Forall_fmap. done.
  - apply arrow_free_obj.
    apply (clean_items_Forall
             (λ kv, contains arrow kv.1 = false ∧ arrow_free kv.2 = true));
      [constructor|].
    eapply Forall_impl; [exact IH|]. simpl. auto.
Qed.

Lemma kept_items_id f items :
  Forall (λ kv, contains arrow kv.1 = false ∧ f kv.2 = kv.2) items →
  kept_items f items = items.
Proof.
  induction 1 as [|[k v] items [Hk Hv] _ IH]; simpl in *; [done|].
  by rewrite Hk, Hv, IH.
Qed.

Lemma key_filter_spec_arrow_free v :
  arrow_free v = true → key_filter_spec v = v.
Proof.
  induction v as [| | | | |l IH|items IH] using json_nested_ind;
    intros Ha; try done.
  - simpl. f_equal. simpl in Ha. apply forallb_Forall in Ha.
    rewrite <- (list_fmap_id l) at 2. apply Forall_fmap_ext_1.
    exact (Forall_mp _ _ _ IH Ha).
  - apply arrow_free_obj in Ha. simpl. f_equal. apply kept_items_id.
    eapply Forall_impl; [exact (Forall_and_1 _ _ _ IH Ha)|].
    simpl. intros x [Hx [Hk Hx']]. auto.
Qed.

Lemma clean_items_all_dropped f items acc :
  Forall (λ kv, contains arrow kv.1 = true) items → clean_items f items acc = acc.
Proof.
  induction 1 as [|[k v] items Hk _ IH]; simpl in *; [done|]. by rewrite Hk.
Qed.

Lemma dict_get_kept_items f items k :
  dict_get (kept_items f items) k =
  if contains arrow k then None else f <$> dict_get items k.
Proof.
  induction items as [|[k' v] items IH]; simpl.
  - by destruct (contains arrow k).
  - destruct (contains arrow k') eqn:Hk'; simpl.
    + destruct (decide (k' = k)) as [->|Hne]; [by rewrite Hk' in IH |- *|done].
    + destruct (decide (k' = k)) as [->|Hne]; [by rewrite Hk'|done].
Qed.

(** C4. On any JSON value (all of whose objects have pairwise distinct keys,
    as every Python [dict] has), [remove_keys_with_arrow] is the key filter
    of the specification: it drops every object entry whose key contains
    ["->"], with its subtree, at every depth, and keeps every other entry
    with its value filtered; a list keeps its length and is filtered element
    by element; a scalar is returned as it is; an object whose keys all
    match becomes the empty object. *)
Theorem key_filter_contract (v : json) :
  unique_keys v = true →
  remove_keys_with_arrow v = key_filter_spec v
  ∧ arrow_free (remove_keys_with_arrow v) = true
  ∧ (∀ items, v = JObj items →
       ∃ items', remove_keys_with_arrow v = JObj items'
         ∧ ∀ k, dict_get items' k =
                if contains arrow k then None
                else remove_keys_with_arrow <$> dict_get items k)
  ∧ (∀ l, v = JList l →
       ∃ l', remove_keys_with_arrow v = JList l'
         ∧ length l' = length l
         ∧ ∀ i, l' !! i = remove_keys_with_arrow <$> l !! i)
  ∧ (is_scalar v = true → remove_keys_with_arrow v = v)
  ∧ (∀ items, v = JObj items →
       Forall (λ kv, contains arrow kv.1 = true) items →
       remove_keys_with_arrow v = JObj []).
Proof.
  intros Hu. split_and!.
  - by apply remove_keys_refines_spec.
  - apply remove_keys_arrow_free.
  - intros items ->. apply unique_keys_obj in Hu as [Hnd Hu].
    exists (kept_items remove_keys_with_arrow items). split.
    + simpl. f_equal. rewrite (clean_items_kept _ remove_keys_with_arrow); [done|done|].
      by apply Forall_true.
    + intros k. apply dict_get_kept_items.
  - intros l ->. exists (remove_keys_with_arrow <$> l). split_and!.
    + done.
    + apply length_fmap.
    + intros i. apply list_lookup_fmap.
  - by destruct v.
  - intros items -> Hall. simpl. by rewrite clean_items_all_dropped.
Qed.

Lemma key_filter_contract_witness :
  unique_keys example_document = true
  ∧ remove_keys_with_arrow example_document =
    JObj [ (py "c", JList [JObj []; JStr (py "x->y")]);
           (py "d", JObj [(py "e", JBool true)]) ].
Proof.
  assert (unique_keys example_document = true) as Hu by (vm_compute; reflexivity).
  split; [exact Hu|].
  destruct (key_filter_contract example_document Hu) as [-> _].
  vm_compute. reflexivity.
Defined.

(** C5. Filtering a JSON value twice gives what filtering it once gives. *)
Theorem key_filter_idempotent (v : json) :
  remove_keys_with_arrow (remove_keys_with_arrow v) = remove_keys_with_arrow v.
Proof.
  rewrite remove_keys_refines_spec by apply remove_keys_unique_keys.
  apply key_filter_spec_arrow_free, remove_keys_arrow_free.
Qed.

(** ** Coordinates and their comparison *)

Lemma tuple_eqb_values c1 c2 :
  tuple_eqb c1 c2 = true ↔ coord_values c1 = coord_values c2.
Proof.
  unfold coord_values. revert c2.
  induction c1 as [|a c1 IH]; intros [|b c2]; simpl; try done.
  rewrite andb_true_iff, IH. unfold int_eqb. rewrite Z.eqb_eq.
  split; [intros [H1 H2]; by f_equal | intros [= H1 H2]; done].
Qed.

Lemma tuple_eqb_refl c : tuple_eqb c c = true.
Proof. by apply tuple_eqb_values. Qed.

Lemma coord_in_values c cs :
  coord_in c cs = true ↔ coord_values c ∈ coord_values <$> cs.
Proof.
  unfold coord_in. induction cs as [|x cs IH]; simpl.
  - rewrite elem_of_nil. done.
  - rewrite orb_true_iff, elem_of_cons, IH, tuple_eqb_values. done.
Qed.

Lemma coord_in_elem_of c cs : c ∈ cs → coord_in c cs = true.
Proof. intros Hc. apply coord_in_values. by apply list_elem_of_fmap_2. Qed.

Lemma int_only_values_inj c1 c2 :
  int_only c1 = true → int_only c2 = true →
  coord_values c1 = coord_values c2 → c1 = c2.
Proof.
  unfold coord_values, int_only. revert c2.
  induction c1 as [|a c1 IH]; intros [|b c2]; simpl; try done.
  rewrite !andb_true_iff. intros [Ha H1] [Hb H2] [= Hab Hc].
  destruct a, b; try done. simpl in Hab. subst. f_equal. by apply IH.
Qed.

(** On coordinates without boolean components the comparison of the code is
    plain equality. *)
Lemma coord_in_int_only c cs :
  int_only c = true → Forall (λ x, int_only x = true) cs →
  coord_in c cs = true ↔ c ∈ cs.
Proof.
  intros Hc Hcs. split; [|apply coord_in_elem_of].
  rewrite coord_in_values. intros (x & Hx & Hin)%list_elem_of_fmap.
  rewrite Forall_forall in Hcs.
  by rewrite (int_only_values_inj c x Hc (Hcs x Hin) Hx).
Qed.

Lemma append_new_nonempty cs c : append_new cs c ≠ [].
Proof.
  unfold append_new. destruct (coord_in c cs) eqn:Hin.
  - by destruct cs.
  - by destruct cs.
Qed.

Lemma append_new_NoDup cs c :
  NoDup (coord_values <$> cs) → NoDup (coord_values <$> append_new cs c).
Proof.
  intros Hnd. unfold append_new. destruct (coord_in c cs) eqn:Hin; [done|].
  rewrite fmap_app. simpl. apply NoDup_app. split_and!; [done| |apply NoDup_singleton].
  intros x Hx ->%list_elem_of_singleton.
  apply coord_in_values in Hx. congruence.
Qed.

Lemma append_new_Forall (R : coordinate → Prop) cs c :
  Forall R cs → R c → Forall R (append_new cs c).
Proof.
  intros Hcs Hc. unfold append_new. destruct (coord_in c cs); [done|].
  apply Forall_app. split; [done|]. by constructor.
Qed.

Lemma coord_in_app x cs1 cs2 :
  coord_in x (cs1 ++ cs2) = coord_in x cs1 || coord_in x cs2.
Proof. unfold coord_in. apply existsb_app. Qed.

Lemma coord_in_append_new x cs c :
  coord_in x (append_new cs c) = coord_in x cs || tuple_eqb x c.
Proof.
  unfold append_new. destruct (coord_in c cs) eqn:Hin.
  - destruct (tuple_eqb x c) eqn:Hxc; [|by rewrite orb_false_r].
    rewrite orb_true_r. apply coord_in_values.
    apply tuple_eqb_values in Hxc. rewrite Hxc. by apply coord_in_values.
  - rewrite coord_in_app. simpl. by rewrite orb_false_r.
Qed.

Lemma append_new_idem cs c : append_new (append_new cs c) c = append_new cs c.
Proof.
  unfold append_new at 1.
  by rewrite coord_in_append_new, tuple_eqb_refl, orb_true_r.
Qed.

Lemma merge_coords_NoDup existing coords :
  NoDup (coord_values <$> existing) →
  NoDup (coord_values <$> merge_coords existing coords).
Proof.
  unfold merge_coords. revert existing.
  induction coords as [|c coords IH]; simpl; auto using append_new_NoDup.
Qed.

Lemma merge_coords_Forall (R : coordinate → Prop) existing coords :
  Forall R existing → Forall R coords → Forall R (merge_coords existing coords).
Proof.
  unfold merge_coords. intros He Hc. revert existing He.
  induction Hc as [|c coords Hc _ IH]; simpl; auto using append_new_Forall.
Qed.

Lemma coord_in_merge_coords x existing coords :
  coord_in x (merge_coords existing coords) =
  coord_in x existing || coord_in x coords.
Proof.
  unfold merge_coords. revert existing.
  induction coords as [|c coords IH]; simpl; intros existing.
  - by rewrite orb_false_r.
  - rewrite IH, coord_in_append_new. by rewrite orb_assoc.
Qed.

Lemma merge_coords_nonempty existing coords :
  existing ≠ [] ∨ coords ≠ [] → merge_coords existing coords ≠ [].
Proof.
  unfold merge_coords. revert existing.
  induction coords as [|c coords IH]; simpl; intros existing [H|H]; try done.
  - apply IH. left. apply append_new_nonempty.
  - apply IH. left. apply append_new_nonempty.
Qed.

(** ** One tile *)

Lemma add_coord_lookup (p : pystr) (c : coordinate) (m : LocationCoordDict)
    (q : pystr) :
  add_coord p c m !! q =
  if decide (q = p) then Some (append_new (default [] (m !! p)) c) else m !! q.
Proof.
  unfold add_coord, append_new. destruct (m !! p) as [cs|] eqn:Hp; simpl.
  - rewrite Hp. simpl. destruct (coord_in c cs) eqn:Hin.
    + destruct (decide (q = p)) as [->|]; done.
    + rewrite lookup_insert. destruct (decide (p = q)), (decide (q = p)); done.
  - rewrite lookup_insert_eq. simpl.
    rewrite lookup_insert. destruct (decide (p = q)) as [->|Hne].
    + by rewrite decide_True.
    + rewrite decide_False by done. by rewrite lookup_insert_ne.
Qed.

Lemma elem_of_paths_from cp a q :
  q ∈ paths_from cp a ↔
  ∃ k, (1 ≤ k ≤ length a)%nat ∧ q = join arrow (cp ++ (strip <$> take k a)).
Proof.
  revert cp. induction a as [|level rest IH]; simpl; intros cp.
  - rewrite elem_of_nil. split; [done|]. intros (k & Hk & _). lia.
  - rewrite elem_of_cons, IH. split.
    + intros [->|(k & Hk & ->)].
      * exists 1%nat. split; [lia|done].
      * exists (S k). split; [lia|]. simpl. by rewrite <- app_assoc.
    + intros ([|[|k]] & Hk & ->); [lia| |].
      * left. done.
      * right. exists (S k). split; [lia|]. by rewrite <- app_assoc.
Qed.

Lemma elem_of_paths a q :
  q ∈ paths_from [] a ↔ ∃ k, (1 ≤ k ≤ length a)%nat ∧ q = prefix_path a k.
Proof. apply elem_of_paths_from. Qed.

Lemma address_loop_lookup (c : coordinate) (cp a : list pystr)
    (m : LocationCoordDict) (q : pystr) :
  address_loop c cp a m !! q =
  if decide (q ∈ paths_from cp a)
  then Some (append_new (default [] (m !! q)) c) else m !! q.
Proof.
  revert cp m. induction a as [|level rest IH]; simpl; intros cp m.
  - done.
  - rewrite IH, add_coord_lookup.
    destruct (decide (q = join arrow (cp ++ [strip level]))) as [->|Hne].
    + rewrite (decide_True (P := _ ∈ _ :: _)) by left.
      simpl. rewrite append_new_idem. by destruct (decide _).
    + destruct (decide (q ∈ paths_from (cp ++ [strip level]) rest)) as [Hin|Hin].
      * rewrite decide_True; [done|]. by right.
      * rewrite decide_False; [done|]. rewrite elem_of_cons. tauto.
Qed.

Lemma has_coord_address_loop c cp a m q x :
  has_coord (address_loop c cp a m) q x =
  has_coord m q x || (bool_decide (q ∈ paths_from cp a) && tuple_eqb x c).
Proof.
  unfold has_coord. rewrite address_loop_lookup.
  destruct (decide (q ∈ paths_from cp a)) as [Hin|Hin].
  - rewrite bool_decide_eq_true_2 by done. simpl. apply coord_in_append_new.
  - rewrite bool_decide_eq_false_2 by done. simpl. by rewrite orb_false_r.
Qed.

Lemma address_loop_ok R c cp a m :
  entries_ok R m → (∀ q, q ∈ paths_from cp a → R q c) →
  entries_ok R (address_loop c cp a m).
Proof.
  intros Hm HR p cs. rewrite address_loop_lookup.
  destruct (decide (p ∈ paths_from cp a)) as [Hin|Hin]; [|apply Hm].
  intros [= <-]. split_and!.
  - apply append_new_nonempty.
  - apply append_new_NoDup. destruct (m !! p) as [cs|] eqn:Hp; simpl.
    + by apply (Hm p cs).
    + constructor.
  - apply append_new_Forall; [|by apply HR].
    destruct (m !! p) as [cs|] eqn:Hp; simpl.
    + by apply (Hm p cs).
    + constructor.
Qed.

Lemma process_tile_cases json_path tile_idx tile m :
  match process_tile json_path tile_idx tile m with
  | TileRaised => tile_raises tile = true
  | TileDone m' out =>
      tile_raises tile = false ∧
      match as_coord (coord_field tile), as_address (address_field tile) with
      | None, _ =>
          m' = m ∧ out = [WarnBadCoord json_path tile_idx (coord_field tile)]
      | Some c, None => m' = m ∧ out = []
      | Some c, Some a => m' = address_loop c [] a m ∧ out = []
      end
  end.
Proof.
  destruct tile as [| | | | | |t]; try done.
  unfold process_tile, tile_raises. cbn [is_dict negb orb coord_field address_field].
  destruct (as_coord _); [by destruct (as_address _)|].
  by destruct (warning_prints _).
Qed.



Lemma process_tile_ok R json_path tile_idx tile m m' out :
  entries_ok R m → (∀ p c, tile_attributes tile p c → R p c) →
  process_tile json_path tile_idx tile m = TileDone m' out →
  entries_ok R m'.
Proof.
  intros Hm HR Hstep.
  pose proof (process_tile_cases json_path tile_idx tile m) as Hc.
  rewrite Hstep in Hc. destruct Hc as [_ Hc].
  destruct (as_coord (coord_field tile)) as [c|] eqn:Hcoord;
    [destruct (as_address (address_field tile)) as [a|] eqn:Haddr|];
    destruct Hc as [-> _]; try done.
  apply address_loop_ok; [done|]. intros q (k & Hk & ->)%elem_of_paths.
  apply HR. by exists a, k.
Qed.

Lemma has_coord_process_tile json_path tile_idx tile m m' out q x :
  process_tile json_path tile_idx tile m = TileDone m' out →
  has_coord m' q x =
  has_coord m q x ||
  match as_coord (coord_field tile), as_address (address_field tile) with
  | Some c, Some a => bool_decide (q ∈ paths_from [] a) && tuple_eqb x c
  | _, _ => false
  end.
Proof.
  intros Hstep.
  pose proof (process_tile_cases json_path tile_idx tile m) as Hc.
  rewrite Hstep in Hc. destruct Hc as [_ Hc].
  destruct (as_coord (coord_field tile)) as [c|];
    [destruct (as_address (address_field tile)) as [a|]|];
    destruct Hc as [-> _]; rewrite ?orb_false_r; try done.
  apply has_coord_address_loop.
Qed.

(** ** One file *)

Lemma entries_ok_empty R : entries_ok R ∅.
Proof. intros p cs. by rewrite lookup_empty. Qed.

Lemma entries_ok_weaken (R R' : pystr → coordinate → Prop) m :
  (∀ p c, R p c → R' p c) → entries_ok R m → entries_ok R' m.
Proof.
  intros HR Hm p cs Hp. destruct (Hm p cs Hp) as (? & ? & Hall).
  split_and!; [done|done|]. eapply Forall_impl; [exact Hall|]. auto.
Qed.

Lemma tiles_loop_cons json_path tile_idx tile rest m :
  tiles_loop json_path tile_idx (tile :: rest) m =
  match process_tile json_path tile_idx tile m with
  | TileRaised => (m, [ErrFailed json_path])
  | TileDone m' out =>
      ((tiles_loop json_path (S tile_idx) rest m').1,
       out ++ (tiles_loop json_path (S tile_idx) rest m').2)
  end.
Proof.
  simpl. destruct (process_tile _ _ _ _); [|done].
  by destruct (tiles_loop _ _ _ _).
Qed.

Lemma tiles_loop_ok R json_path tile_idx tiles m :
  entries_ok R m →
  (∀ tile p c, tile ∈ reached tiles → tile_attributes tile p c → R p c) →
  entries_ok R (tiles_loop json_path tile_idx tiles m).1.
Proof.
  revert tile_idx m. induction tiles as [|tile rest IH]; intros i m Hm HR.
  - done.
  - rewrite tiles_loop_cons.
    pose proof (process_tile_cases json_path i tile m) as Hc.
    destruct (process_tile json_path i tile m) as [m' out|] eqn:Hstep; [|done].
    destruct Hc as [Hdict _]. simpl in HR. rewrite Hdict in HR. simpl.
    apply IH.
    + eapply process_tile_ok; [exact Hm| |exact Hstep].
      intros p c. apply HR. left.
    + intros t p c Ht. apply HR. by right.
Qed.

Lemma has_coord_tiles_loop_mono json_path tile_idx tiles m q x :
  has_coord m q x = true →
  has_coord (tiles_loop json_path tile_idx tiles m).1 q x = true.
Proof.
  revert tile_idx m. induction tiles as [|tile rest IH]; intros i m Hm.
  - done.
  - rewrite tiles_loop_cons.
    destruct (process_tile json_path i tile m) as [m' out|] eqn:Hstep; [|done].
    simpl. apply IH.
    rewrite (has_coord_process_tile _ _ _ _ _ _ _ _ Hstep), Hm. done.
Qed.

Lemma has_coord_tiles_loop_covers json_path tile_idx tiles m tile p c :
  tile ∈ reached tiles → tile_attributes tile p c →
  has_coord (tiles_loop json_path tile_idx tiles m).1 p c = true.
Proof.
  intros Hin (a & k & Hcoord & Haddr & Hk & ->).
  revert tile_idx m Hin. induction tiles as [|t rest IH]; intros i m Hin.
  - by apply elem_of_nil in Hin.
  - rewrite tiles_loop_cons. simpl in Hin.
    pose proof (process_tile_cases json_path i t m) as Hc.
    destruct (tile_raises t) eqn:Hraises; [by apply elem_of_nil in Hin|].
    destruct (process_tile json_path i t m) as [m' out|] eqn:Hstep;
      [|congruence].
    simpl. apply elem_of_cons in Hin as [<-|Hin]; [|by apply IH].
    apply has_coord_tiles_loop_mono.
    rewrite (has_coord_process_tile _ _ _ _ _ _ _ _ Hstep), Hcoord, Haddr.
    rewrite tuple_eqb_refl, bool_decide_eq_true_2; [by rewrite orb_true_r|].
    apply elem_of_paths. by exists k.
Qed.

Lemma extract_result json_path file :
  (extract_location_coords_from_json json_path file).1 =
  (tiles_loop json_path 1 (file_tiles file) ∅).1.
Proof.
  destruct file as [| |data]; try done.
  destruct data as [| | | | | |data]; try done. simpl.
  destruct (default (JList []) (dict_get data (py "tiles")))
    as [|b|z|f|s|l|items]; simpl; try done.
  - by destruct b.
  - by destruct (negb (z =? 0)%Z).
  - by destruct f.
  - by destruct (negb _).
  - destruct l; done.
  - by destruct (negb _).
Qed.

Lemma extract_ok json_path file :
  entries_ok (λ p c, ∃ tile, tile ∈ visited_tiles file ∧ tile_attributes tile p c)
    (extract_location_coords_from_json json_path file).1.
Proof.
  rewrite extract_result. apply tiles_loop_ok; [apply entries_ok_empty|].
  intros tile p c Ht Hattr. by exists tile.
Qed.

Lemma has_coord_extract json_path file tile p c :
  tile ∈ visited_tiles file → tile_attributes tile p c →
  has_coord (extract_location_coords_from_json json_path file).1 p c = true.
Proof. rewrite extract_result. apply has_coord_tiles_loop_covers. Qed.

(** A tile whose [coord] fails validation, and whose warning can be
    printed, leaves the mapping as it is, prints its warning, and the
    loop goes on with the next tile. *)
Lemma tiles_loop_invalid_coord json_path tile_idx tile rest m :
  tile_raises tile = false → as_coord (coord_field tile) = None →
  tiles_loop json_path tile_idx (tile :: rest) m =
  ((tiles_loop json_path (S tile_idx) rest m).1,
   WarnBadCoord json_path tile_idx (coord_field tile)
   :: (tiles_loop json_path (S tile_idx) rest m).2).
Proof.
  intros Hdict Hcoord. rewrite tiles_loop_cons.
  pose proof (process_tile_cases json_path tile_idx tile m) as Hc.
  destruct (process_tile _ _ _ _) as [m' out|]; [|congruence].
  rewrite Hcoord in Hc. by destruct Hc as (_ & -> & ->).
Qed.




(** ** Merging per-file mappings *)

Lemma merge_path_lookup (p : pystr) (cs : list coordinate)
    (all : LocationCoordDict) (q : pystr) :
  merge_path p cs all !! q =
  if decide (q = p) then Some (merge_coords (default [] (all !! p)) cs)
  else all !! q.
Proof.
  unfold merge_path. rewrite lookup_insert.
  destruct (decide (p = q)), (decide (q = p)); done.
Qed.

Lemma merge_file_lookup (f all : LocationCoordDict) (p : pystr) :
  merge_file f all !! p =
  match f !! p with
  | Some cs => Some (merge_coords (default [] (all !! p)) cs)
  | None => all !! p
  end.
Proof.
  unfold merge_file. revert p.
  apply (map_fold_weak_ind
           (λ r (m : LocationCoordDict), ∀ p : pystr,
              r !! p = match m !! p with
                       | Some cs => Some (merge_coords (default [] (all !! p)) cs)
                       | None => all !! p
                       end)).
  - intros p. by rewrite lookup_empty.
  - intros i cs m r Hi IH p. rewrite merge_path_lookup, lookup_insert.
    destruct (decide (p = i)) as [->|Hne].
    + rewrite decide_True by done. by rewrite IH, Hi.
    + rewrite decide_False by done. apply IH.
Qed.

Lemma has_coord_merge_file f all p x :
  has_coord (merge_file f all) p x = has_coord all p x || has_coord f p x.
Proof.
  unfold has_coord. rewrite merge_file_lookup.
  destruct (f !! p) as [cs|]; simpl.
  - apply coord_in_merge_coords.
  - by rewrite orb_false_r.
Qed.

Lemma merge_file_is_Some (f all : LocationCoordDict) (p : pystr) :
  is_Some (merge_file f all !! p) ↔ is_Some (all !! p) ∨ is_Some (f !! p).
Proof.
  rewrite merge_file_lookup. destruct (f !! p) as [cs|]; simpl.
  - split; [by right|by eauto].
  - split; [by left|]. intros [?|[? ?]]; done.
Qed.

Lemma merge_file_distinct (f all : LocationCoordDict) :
  map_Forall (λ _ cs, NoDup (coord_values <$> cs)) all →
  map_Forall (λ _ cs, NoDup (coord_values <$> cs)) (merge_file f all).
Proof.
  intros Hall p cs. rewrite merge_file_lookup.
  destruct (f !! p) as [cs'|]; [|apply Hall].
  intros [= <-]. apply merge_coords_NoDup.
  destruct (all !! p) as [cs|] eqn:Hp; simpl; [by apply (Hall p)|constructor].
Qed.

Lemma merge_file_Forall (R : pystr → coordinate → Prop)
    (f all : LocationCoordDict) :
  map_Forall (λ p cs, Forall (R p) cs) all →
  map_Forall (λ p cs, Forall (R p) cs) f →
  map_Forall (λ p cs, Forall (R p) cs) (merge_file f all).
Proof.
  intros Hall Hf p cs. rewrite merge_file_lookup.
  destruct (f !! p) as [cs'|] eqn:Hfp; [|apply Hall].
  intros [= <-]. apply merge_coords_Forall; [|by apply (Hf p)].
  destruct (all !! p) as [cs|] eqn:Hp; simpl; [by apply (Hall p)|constructor].
Qed.

Lemma merge_file_nonempty (f all : LocationCoordDict) :
  map_Forall (λ _ cs, cs ≠ []) all → map_Forall (λ _ cs, cs ≠ []) f →
  map_Forall (λ _ cs, cs ≠ []) (merge_file f all).
Proof.
  intros Hall Hf p cs. rewrite merge_file_lookup.
  destruct (f !! p) as [cs'|] eqn:Hfp; [|apply Hall].
  intros [= <-]. apply merge_coords_nonempty. right. by apply (Hf p).
Qed.

Lemma entries_ok_split (R : pystr → coordinate → Prop) (m : LocationCoordDict) :
  entries_ok R m ↔
  map_Forall (λ _ cs, cs ≠ []) m
  ∧ map_Forall (λ _ cs, NoDup (coord_values <$> cs)) m
  ∧ map_Forall (λ p cs, Forall (R p) cs) m.
Proof.
  unfold entries_ok, map_Forall. split.
  - intros H. split_and!; intros p cs Hp; by destruct (H p cs Hp) as (?&?&?).
  - intros (H1 & H2 & H3) p cs Hp.
    split_and!; [by apply (H1 p)|by apply (H2 p)|by apply (H3 p)].
Qed.

Lemma merge_file_ok R f all :
  entries_ok R all → entries_ok R f → entries_ok R (merge_file f all).
Proof.
  rewrite !entries_ok_split. intros (?&?&?) (?&?&?).
  auto using merge_file_nonempty, merge_file_distinct, merge_file_Forall.
Qed.

Section merge_fold.
Implicit Types (fs : list LocationCoordDict) (all : LocationCoordDict).

Lemma foldl_merge_ok R fs all :
  entries_ok R all → Forall (entries_ok R) fs →
  entries_ok R (foldl merge_step all fs).
Proof.
  intros Hall Hfs. revert all Hall.
  induction Hfs as [|f fs Hf _ IH]; simpl; intros all Hall; [done|].
  apply IH. by apply merge_file_ok.
Qed.

Lemma foldl_merge_distinct fs all :
  map_Forall (λ _ cs, NoDup (coord_values <$> cs)) all →
  map_Forall (λ _ cs, NoDup (coord_values <$> cs)) (foldl merge_step all fs).
Proof.
  revert all. induction fs as [|f fs IH]; simpl; intros all Hall; [done|].
  apply IH. by apply merge_file_distinct.
Qed.

Lemma foldl_merge_Forall (R : pystr → coordinate → Prop) fs all :
  map_Forall (λ p cs, Forall (R p) cs) all →
  Forall (map_Forall (λ p cs, Forall (R p) cs)) fs →
  map_Forall (λ p cs, Forall (R p) cs) (foldl merge_step all fs).
Proof.
  intros Hall Hfs. revert all Hall.
  induction Hfs as [|f fs Hf _ IH]; simpl; intros all Hall; [done|].
  apply IH. by apply merge_file_Forall.
Qed.

Lemma has_coord_foldl_merge fs all p x :
  has_coord (foldl merge_step all fs) p x =
  has_coord all p x || existsb (λ f, has_coord f p x) fs.
Proof.
  revert all. induction fs as [|f fs IH]; simpl; intros all.
  - by rewrite orb_false_r.
  - unfold merge_step at 2. by rewrite IH, has_coord_merge_file, orb_assoc.
Qed.

Lemma foldl_merge_is_Some fs all (p : pystr) :
  is_Some (foldl merge_step all fs !! p) ↔
  is_Some (all !! p) ∨ ∃ f, f ∈ fs ∧ is_Some (f !! p).
Proof.
  revert all. induction fs as [|f fs IH]; simpl; intros all.
  - split; [by left|]. intros [?|(f & Hf & _)]; [done|].
    by apply elem_of_nil in Hf.
  - rewrite IH. unfold merge_step at 1. rewrite merge_file_is_Some. split.
    + intros [[?|?]|(f' & Hf' & ?)]; [by left| |].
      * right. exists f. split; [left|done].
      * right. exists f'. split; [by right|done].
    + intros [?|(f' & Hf' & ?)]; [by left; left|].
      apply elem_of_cons in Hf' as [->|Hf']; [by left; right|].
      right. by exists f'.
Qed.
End merge_fold.

Lemma walk_loop_result entries all n :
  (walk_loop entries all n).1.1 =
  foldl merge_step all (file_mappings entries).
Proof.
  unfold file_mappings, json_files. revert all n.
  induction entries as [|e rest IH]; intros all n; [done|].
  cbn [walk_loop]. rewrite filter_cons.
  destruct (endswith (py ".json") (filename e)) eqn:Hjson.
  - rewrite decide_True by done. cbn [fmap list_fmap foldl].
    destruct (extract_location_coords_from_json _ _) as [f out] eqn:Hf.
    specialize (IH (merge_file f all) (S n)).
    destruct (walk_loop rest (merge_file f all) (S n)) as [[r k] out'].
    exact IH.
  - rewrite decide_False by done. apply IH.
Qed.

Lemma merge_all_result entries :
  (merge_all_location_coords entries).1.1 = merge_mappings (file_mappings entries).
Proof. apply walk_loop_result. Qed.

(** ** The claims about extraction *)




(** ** The claims about the merged result *)

Lemma existsb_elem_of {A} (f : A → bool) (l : list A) (x : A) :
  x ∈ l → f x = true → existsb f l = true.
Proof.
  induction 1 as [x l|x y l _ IH]; simpl; intros Hx.
  - by rewrite Hx.
  - by rewrite IH, orb_true_r.
Qed.

Lemma existsb_Permutation {A} (f : A → bool) (l1 l2 : list A) :
  l1 ≡ₚ l2 → existsb f l1 = existsb f l2.
Proof.
  induction 1 as [|x l1 l2 _ IH|x y l|l1 l2 l3 _ IH1 _ IH2]; simpl.
  - done.
  - by rewrite IH.
  - by rewrite !orb_assoc, (orb_comm (f x)).
  - congruence.
Qed.

Lemma merged_entries_ok entries :
  entries_ok (walk_attributes entries) (merge_all_location_coords entries).1.1.
Proof.
  rewrite merge_all_result. apply foldl_merge_ok; [apply entries_ok_empty|].
  unfold file_mappings. apply Forall_fmap, Forall_forall. intros e He. simpl.
  eapply entries_ok_weaken; [|apply extract_ok].
  simpl. intros p c (tile & Htile & Hattr). by exists e, tile.
Qed.

Lemma has_coord_merged entries e tile p c :
  e ∈ json_files entries → tile ∈ visited_tiles (content e) →
  tile_attributes tile p c →
  has_coord (merge_all_location_coords entries).1.1 p c = true.
Proof.
  intros He Htile Hattr. rewrite merge_all_result. unfold merge_mappings.
  rewrite has_coord_foldl_merge. simpl. apply existsb_elem_of with
    (extract_location_coords_from_json
       (path_join (root e) (filename e)) (content e)).1.
  - unfold file_mappings.
    by apply (list_elem_of_fmap_2
                (λ e, (extract_location_coords_from_json
                         (path_join (root e) (filename e)) (content e)).1)).
  - by apply has_coord_extract with tile.
Qed.




(** C10. In the mapping extracted from any file and in the result merged
    from any files, every path present has a non-empty coordinate list;
    creating the entry of a path and appending the coordinate are one
    step. *)
Theorem present_paths_have_coordinates :
  (∀ json_path file p cs,
     (extract_location_coords_from_json json_path file).1 !! p = Some cs →
     cs ≠ [])
  ∧ (∀ entries p cs,
       (merge_all_location_coords entries).1.1 !! p = Some cs → cs ≠ [])
  ∧ (∀ (p q : pystr) (c : coordinate) (m : LocationCoordDict),
       m !! q = None → is_Some (add_coord p c m !! q) →
       q = p ∧ add_coord p c m !! q = Some [c]).
Proof.
  split_and!.
  - intros json_path file p cs Hp.
    by destruct (extract_ok json_path file p cs Hp) as [? _].
  - intros entries p cs Hp.
    by destruct (merged_entries_ok entries p cs Hp) as [? _].
  - intros p q c m Hq. rewrite add_coord_lookup.
    destruct (decide (q = p)) as [->|Hne].
    + rewrite Hq. done.
    + rewrite Hq. by intros [? ?].
Qed.

Lemma present_paths_have_coordinates_witness :
  (merge_all_location_coords two_files).1.1 !! py "A" =
  Some [[PInt 1; PInt 2]; [PInt 3; PInt 4]]
  ∧ [[PInt 1; PInt 2]; [PInt 3; PInt 4]] ≠ ([] : list coordinate).
Proof.
  assert ((merge_all_location_coords two_files).1.1 !! py "A" =
          Some [[PInt 1; PInt 2]; [PInt 3; PInt 4]]) as Hp
    by (vm_compute; reflexivity).
  split; [exact Hp|].
  destruct present_paths_have_coordinates as (_ & Hmerged & _).
  exact (Hmerged two_files (py "A") _ Hp).
Defined.

(** Merging the same per-file mappings in two different orders gives
    results with the same paths and, under every path, the same
    coordinates up to the comparison the merge itself uses: a coordinate is
    found in one list exactly when it is found in the other; and when no
    coordinate has a boolean component the two lists are permutations of
    each other, so that only their order can differ. *)
Lemma merge_order_independent (fs1 fs2 : list LocationCoordDict) :
  fs1 ≡ₚ fs2 →
  let m1 := merge_mappings fs1 in
  let m2 := merge_mappings fs2 in
  dom m1 = dom m2
  ∧ (∀ p c, has_coord m1 p c = has_coord m2 p c)
  ∧ ((∀ f p cs, f ∈ fs1 → f !! p = Some cs →
        Forall (λ c, int_only c = true) cs) →
     ∀ p, default [] (m1 !! p) ≡ₚ default [] (m2 !! p)).
Proof.
  intros Hperm m1 m2.
  assert (∀ p c, has_coord m1 p c = has_coord m2 p c) as Hhas.
  { intros p c. unfold m1, m2, merge_mappings.
    rewrite !has_coord_foldl_merge. f_equal. by apply existsb_Permutation. }
  split_and!; [|done|].
  - apply set_eq. intros p. rewrite !elem_of_dom.
    unfold m1, m2, merge_mappings. rewrite !foldl_merge_is_Some.
    by setoid_rewrite Hperm.
  - intros Hint p.
    assert (∀ fs, (∀ f p cs, f ∈ fs → f !! p = Some cs →
                     Forall (λ c, int_only c = true) cs) →
              NoDup (default [] (merge_mappings fs !! p))
              ∧ Forall (λ c, int_only c = true)
                  (default [] (merge_mappings fs !! p))) as Hlist.
    { intros fs Hfs. unfold merge_mappings.
      destruct (foldl _ ∅ fs !! p) as [cs|] eqn:Hp; simpl;
        [|split; constructor].
      split.
      - eapply NoDup_fmap_1, (foldl_merge_distinct fs ∅); [|exact Hp].
        intros q cs'. by rewrite lookup_empty.
      - eapply (foldl_merge_Forall (λ _ c, int_only c = true) fs ∅);
          [| |exact Hp].
        + intros q cs'. by rewrite lookup_empty.
        + apply Forall_forall. intros f Hf q cs' Hq. by apply (Hfs f q). }
    destruct (Hlist fs1 Hint) as [Hnd1 Hint1].
    destruct (Hlist fs2) as [Hnd2 Hint2].
    { intros f q cs Hf. apply Hint. by rewrite Hperm. }
    apply NoDup_Permutation; [done|done|]. intros c.
    specialize (Hhas p c). unfold has_coord in Hhas.
    rewrite Forall_forall in Hint1, Hint2. split; intros Hc.
    + apply coord_in_int_only; [by apply Hint1|by apply Forall_forall|].
      fold m2. rewrite <- Hhas. by apply coord_in_elem_of.
    + apply coord_in_int_only; [by apply Hint2|by apply Forall_forall|].
      fold m1. rewrite Hhas. by apply coord_in_elem_of.
Qed.

Lemma merge_order_independent_witness :
  dom (merge_mappings [mapping_x1; mapping_x12]) =
  dom (merge_mappings [mapping_x12; mapping_x1])
  ∧ merge_mappings [mapping_x1; mapping_x12] !! py "X" =
    Some [[PInt 1; PInt 1]; [PInt 2; PInt 2]]
  ∧ merge_mappings [mapping_x12; mapping_x1] !! py "X" =
    Some [[PInt 2; PInt 2]; [PInt 1; PInt 1]].
Proof.
  destruct (merge_order_independent [mapping_x1; mapping_x12]
              [mapping_x12; mapping_x1]) as (Hdom & _ & _).
  - apply Permutation_swap.
  - split; [exact Hdom|]. split; vm_compute; reflexivity.
Defined.

Lemma file_mappings_Permutation entries1 entries2 :
  entries1 ≡ₚ entries2 → file_mappings entries1 ≡ₚ file_mappings entries2.
Proof. intros Hperm. unfold file_mappings, json_files. by rewrite Hperm. Qed.

(** ** What is reported *)

Local Ltac one_message :=
  right; split; [reflexivity|]; eexists; split; [reflexivity|]; set_solver.

Lemma extract_cases json_path file :
  (file_tiles file ≠ [] ∧
   extract_location_coords_from_json json_path file =
   tiles_loop json_path 1 (file_tiles file) ∅)
  ∨ (file_tiles file = [] ∧
     ∃ msg, extract_location_coords_from_json json_path file = (∅, [msg])
          ∧ msg ∈ [WarnNoTiles json_path; ErrFailed json_path;
                   ErrInvalidJson json_path]).
Proof.
  destruct file as [| |data]; simpl; [one_message..|].
  destruct data as [| | | | | |data]; simpl; try one_message.
  destruct (default (JList []) (dict_get data (py "tiles")))
    as [|b|z|f|s|l|items]; simpl.
  - one_message.
  - destruct b; one_message.
  - destruct (negb (z =? 0)%Z); one_message.
  - destruct f; one_message.
  - destruct (negb _); one_message.
  - destruct l as [|t l]; [one_message|]. left. done.
  - destruct (negb _); one_message.
Qed.





Lemma as_coord_json coord c : as_coord coord = Some c → coord = coord_json c.
Proof.
  destruct coord as [| | | | |cs|]; simpl; try done.
  case_bool_decide as Hlen; [|done]. clear Hlen.
  intros Hall%mapM_Some. unfold coord_json. f_equal.
  induction Hall as [|x i cs c Hx _ IH]; [done|].
  cbn [fmap list_fmap]. f_equal; [|exact IH]. by destruct x; simplify_eq/=.
Qed.

(** A [coord] that is a string with a lone surrogate: its warning cannot
    be printed, the handler of line 54 takes over, and the tiles after it
    are lost with it. *)
Example unprintable_warning_ends_extraction :
  extract_location_coords_from_json (py "map.json")
    (document [tile_unprintable_coord; tile_abc])
  = (∅, [ErrFailed (py "map.json")])
  ∧ visited_tiles (document [tile_unprintable_coord; tile_abc]) = [].
Proof. split; vm_compute; reflexivity. Qed.

(** The [coord] of a tile that fails the validation is in no list of the
    merged result. *)
Lemma rejected_coord_never_stored entries tile p cs c :
  as_coord (coord_field tile) = None →
  (merge_all_location_coords entries).1.1 !! p = Some cs → c ∈ cs →
  coord_json c ≠ coord_field tile.
Proof.
  intros Hrej Hp Hc Heq.
  destruct (merged_entries_ok entries p cs Hp) as (_ & _ & Hobs).
  rewrite Forall_forall in Hobs.
  destruct (Hobs c Hc) as (e & tile' & _ & _ & a & k & Hcoord & _).
  apply as_coord_json in Hcoord as Hjson.
  rewrite <- Heq, <- Hjson in Hrej. congruence.
Qed.

(** C6 at a tile whose [coord] is a pair of booleans: integers they are
    not, yet the tile is not skipped. It is processed without a warning
    and its coordinate is stored under its path. *)
Theorem boolean_coord_not_skipped :
  is_integer_pair (coord_field tile_bool) = false
  ∧ process_tile (py "map.json") 1 tile_bool ∅ =
    TileDone {[ py "A" := [[PBool true; PBool false]] ]} []
  ∧ extract_location_coords_from_json (py "map.json") (document [tile_bool]) =
    ({[ py "A" := [[PBool true; PBool false]] ]}, []).
Proof. split_and!; vm_compute; reflexivity. Qed.

(** A component the test does reject: the tile [coord = [1,"2"]] is
    skipped with its warning and the next tile is processed. *)
Example string_component_skipped :
  extract_location_coords_from_json (py "map.json")
    (document [tile_bad_coord; tile_abc]) =
  ((extract_location_coords_from_json (py "map.json")
      (document [tile_abc])).1,
   [WarnBadCoord (py "map.json") 1 (JList [JInt 1; JStr (py "2")])]).
Proof. vm_compute. reflexivity. Qed.

(** C9. A [coord] of two JSON booleans passes the validation of line 28,
    and the coordinate of such a tile is attributed to the paths of its
    address, without a warning. *)
Theorem boolean_coord_accepted :
  (∀ b1 b2, as_coord (JList [JBool b1; JBool b2]) = Some [PBool b1; PBool b2])
  ∧ ∃ t : json,
      coord_field t = JList [JBool true; JBool false]
      ∧ extract_location_coords_from_json (py "map.json") (document [t]) =
        ({[ py "A" := [[PBool true; PBool false]];
            py "A->B" := [[PBool true; PBool false]] ]}, []).
Proof.
  split; [done|].
  exists (tile (JList [JBool true; JBool false]) [JStr (py "A"); JStr (py "B")]).
  split; vm_compute; reflexivity.
Qed.

(** With boolean components the two orders of a merge keep different
    representatives of what the comparison takes for one coordinate. *)
Example boolean_representative_follows_order :
  merge_mappings [ {[ py "X" := [[PBool true; PBool false]] ]};
                   {[ py "X" := [[PInt 1; PInt 0]] ]} ]
  = {[ py "X" := [[PBool true; PBool false]] ]}
  ∧ merge_mappings [ {[ py "X" := [[PInt 1; PInt 0]] ]};
                     {[ py "X" := [[PBool true; PBool false]] ]} ]
    = {[ py "X" := [[PInt 1; PInt 0]] ]}.
Proof. split; vm_compute; reflexivity. Qed.

(** C3 at two files that give one location the coordinates [[true,false]]
    and [[1,0]]: the two visit orders leave different lists under the
    path, [[true,false]] alone after one and [[1,0]] alone after the
    other, so the merged contents differ by more than the order of their
    coordinates, and so does what is written. *)
Theorem merge_order_changes_boolean_coordinates :
  [file_bool_x; file_int_x] ≡ₚ [file_int_x; file_bool_x]
  ∧ (merge_all_location_coords [file_bool_x; file_int_x]).1.1
    = {[ py "X" := [[PBool true; PBool false]] ]}
  ∧ (merge_all_location_coords [file_int_x; file_bool_x]).1.1
    = {[ py "X" := [[PInt 1; PInt 0]] ]}
  ∧ ¬ ([[PBool true; PBool false]] ≡ₚ [[PInt 1; PInt 0]])
  ∧ save_location_coords_to_json
      (merge_all_location_coords [file_bool_x; file_int_x]).1.1
    ≠ save_location_coords_to_json
        (merge_all_location_coords [file_int_x; file_bool_x]).1.1.
Proof.
  split_and!.
  - apply Permutation_swap.
  - vm_compute. reflexivity.
  - vm_compute. reflexivity.
  - intros Hperm.
    assert ([PBool true; PBool false] ∈ [[PInt 1; PInt 0]]) as Hin
      by (rewrite <- Hperm; left).
    by apply list_elem_of_singleton in Hin.
  - vm_compute. discriminate.
Qed.

(** ** The order of the output *)

Lemma str_le_refl a : str_le a a = true.
Proof.
  induction a as [|x a IH]; simpl; [done|].
  by rewrite N.ltb_irrefl, N.eqb_refl.
Qed.

Lemma str_le_total a b : str_le a b = true ∨ str_le b a = true.
Proof.
  revert b. induction a as [|x a IH]; intros [|y b]; simpl; auto.
  destruct (N.ltb_spec x y), (N.ltb_spec y x); auto; try lia.
  assert (x = y) as -> by lia. rewrite N.eqb_refl. apply IH.
Qed.

Lemma str_le_trans a b c :
  str_le a b = true → str_le b c = true → str_le a c = true.
Proof.
  revert b c. induction a as [|x a IH]; intros [|y b] [|z c]; simpl; try done.
  destruct (N.ltb_spec x y), (N.ltb_spec y z), (N.ltb_spec x z);
    destruct (N.eqb_spec x y), (N.eqb_spec y z), (N.eqb_spec x z);
    try done; try lia. apply IH.
Qed.

Lemma str_le_antisym a b : str_le a b = true → str_le b a = true → a = b.
Proof.
  revert b. induction a as [|x a IH]; intros [|y b]; simpl; try done.
  destruct (N.ltb_spec x y), (N.ltb_spec y x);
    destruct (N.eqb_spec x y), (N.eqb_spec y x); try done; try lia.
  intros Hab Hba. subst. f_equal. by apply IH.
Qed.

(** The order of the sort keys, spelled out: fewer levels first, and among
    paths with as many levels, the lexicographically smaller first. *)
Lemma path_le_levels x y :
  path_le x y ↔
  (length (split arrow x) < length (split arrow y))%nat
  ∨ (length (split arrow x) = length (split arrow y) ∧ str_le x y = true).
Proof.
  unfold path_le, key_le, sort_key. simpl.
  destruct (Nat.ltb_spec (length (split arrow x)) (length (split arrow y)));
    [by split; auto|].
  destruct (Nat.eqb_spec (length (split arrow x)) (length (split arrow y))).
  - split; [by right|]. intros [?|[_ ?]]; [lia|done].
  - split; [done|]. intros [?|[? _]]; lia.
Qed.

Global Instance path_le_total : Total path_le.
Proof.
  intros x y. rewrite !path_le_levels.
  destruct (lt_eq_lt_dec (length (split arrow x)) (length (split arrow y)))
    as [[?|?]|?]; [by left; left| |by right; left].
  destruct (str_le_total x y); [left|right]; by right.
Qed.

Global Instance path_le_trans : Transitive path_le.
Proof.
  intros x y z. rewrite !path_le_levels.
  intros [?|[? Hxy]] [?|[? Hyz]]; try lia.
  right. split; [lia|]. by apply str_le_trans with y.
Qed.

Global Instance path_le_antisym : AntiSymm (=) path_le.
Proof.
  intros x y. rewrite !path_le_levels.
  intros [?|[? Hxy]] [?|[? Hyx]]; try lia. by apply str_le_antisym.
Qed.

Global Instance item_le_total : Total item_le.
Proof. intros x y. apply (total path_le). Qed.

Global Instance item_le_trans : Transitive item_le.
Proof. intros x y z. apply (transitivity (R:=path_le)). Qed.

Lemma saved_paths (lc : LocationCoordDict) :
  (save_location_coords_to_json lc).*1 = sorted_paths lc.
Proof.
  unfold save_location_coords_to_json, sorted_paths.
  apply (StronglySorted_unique path_le).
  - apply (StronglySorted_fmap fst item_le path_le); [done|].
    apply (StronglySorted_merge_sort item_le).
  - apply (StronglySorted_merge_sort path_le).
  - by rewrite !merge_sort_Permutation.
Qed.

(** The order leaves no choice: any list of the paths sorted by it is the
    one [sorted] returns, whatever the sorting algorithm. *)
Lemma sorted_paths_unique (lc : LocationCoordDict) (l : list pystr) :
  l ≡ₚ (map_to_list lc).*1 → StronglySorted path_le l → l = sorted_paths lc.
Proof.
  intros Hperm Hsorted. apply (StronglySorted_unique path_le); [done| |].
  - apply (StronglySorted_merge_sort path_le).
  - unfold sorted_paths. by rewrite merge_sort_Permutation.
Qed.

(** C8. What [save_location_coords_to_json] hands to [json.dump] holds
    the items of the mapping, each path once with its coordinates, in the
    order of [(number of levels, path)]: a path with fewer
    ["->"]-separated segments comes before one with more, and among paths
    with as many segments the lexicographically smaller comes first.
    [print_location_coords] prints the same paths in the same order,
    numbered from 1. *)
Theorem output_sorted_by_levels_then_path (lc : LocationCoordDict) :
  let saved := save_location_coords_to_json lc in
  (∀ p cs, (p, cs) ∈ saved ↔ lc !! p = Some cs)
  ∧ NoDup saved.*1
  ∧ StronglySorted path_le saved.*1
  ∧ (∀ x y, path_le x y ↔
       (length (split arrow x) < length (split arrow y))%nat
       ∨ (length (split arrow x) = length (split arrow y)
          ∧ str_le x y = true))
  ∧ saved.*1 = sorted_paths lc
  ∧ (∀ j p cs, saved !! j = Some (p, cs) →
       print_location_coords lc !! j = Some (PrintedEntry (S j) p cs)).
Proof.
  intros saved.
  assert (saved ≡ₚ map_to_list lc) as Hperm
    by apply (merge_sort_Permutation item_le).
  assert (∀ p cs, (p, cs) ∈ saved ↔ lc !! p = Some cs) as Hitems.
  { intros p cs. rewrite Hperm. apply elem_of_map_to_list. }
  split_and!.
  - done.
  - rewrite Hperm. apply NoDup_fst_map_to_list.
  - unfold saved. rewrite saved_paths.
    apply (StronglySorted_merge_sort path_le).
  - apply path_le_levels.
  - apply saved_paths.
  - intros j p cs Hj. unfold print_location_coords.
    assert (lc !! p = Some cs) as Hp.
    { apply Hitems. by apply list_elem_of_lookup_2 with j. }
    rewrite bool_decide_eq_false_2.
    + rewrite list_lookup_imap, <- saved_paths.
      fold saved. rewrite list_lookup_fmap, Hj. simpl. by rewrite Hp.
    + intros ->. by rewrite lookup_empty in Hp.
Qed.

Lemma output_sorted_by_levels_then_path_witness :
  (save_location_coords_to_json mapping_levels).*1 =
  [py "B"; py "a"; py "A->Z"; py "B->C"; py "A->B->C"]
  ∧ StronglySorted path_le (save_location_coords_to_json mapping_levels).*1.
Proof.
  destruct (output_sorted_by_levels_then_path mapping_levels)
    as (_ & _ & Hsorted & _).
  split; [vm_compute; reflexivity|exact Hsorted].
Defined.

(** * Further properties of the two scripts *)

(** ** The key filter and its file wrapper *)

(** The values the filter leaves as they are have no key containing
    ["->"]; and it leaves every such value (with the distinct keys of
    Python [dict]s) as it is. *)
Theorem key_filter_fixpoints (v : json) :
  (remove_keys_with_arrow v = v → arrow_free v = true)
  ∧ (unique_keys v = true → arrow_free v = true →
     remove_keys_with_arrow v = v).
Proof.
  split.
  - intros Hfix. rewrite <- Hfix. apply remove_keys_arrow_free.
  - intros Hu Ha. rewrite remove_keys_refines_spec by done.
    by apply key_filter_spec_arrow_free.
Qed.

Lemma key_filter_fixpoints_witness :
  remove_keys_with_arrow clean_document = clean_document.
Proof.
  apply (proj2 (key_filter_fixpoints clean_document)); reflexivity.
Defined.



(** When the input file is to be overwritten and a backup was asked for,
    [process_json_file] opens it for writing only after the backup was
    made or, the backup having failed, after the operator answered yes;
    without that answer the run stops before the file is even read. *)
Theorem overwrite_needs_backup_or_consent (env : filter_env) :
  let r := process_json_file env true true in
  (r.2 ≠ NotOpened →
     FBackedUp ∈ r.1.2 ∧ backup_ok env = true
     ∨ FWarnBackupFailed ∈ r.1.2 ∧ backup_ok env = false
       ∧ answered_yes env = true)
  ∧ (input_exists env = true → backup_ok env = false →
     answered_yes env = false → r = (false, [FWarnBackupFailed], NotOpened)).
Proof.
  destruct env as [ex bk yes content op dk]. unfold process_json_file. simpl.
  split.
  - destruct ex, bk, yes, content as [| |data], op, dk; simpl;
      try destruct (json_encodable (remove_keys_with_arrow data)); simpl;
      intros Hw; try done;
      first [ left; split; [set_solver|done]
            | right; split_and!; [set_solver|done|done] ].
  - intros -> -> ->. done.
Qed.

Lemma overwrite_needs_backup_or_consent_witness :
  process_json_file backup_refused_env true true
  = (false, [FWarnBackupFailed], NotOpened).
Proof.
  apply (proj2 (overwrite_needs_backup_or_consent backup_refused_env));
    reflexivity.
Defined.

(** ** Extraction from one file *)

Lemma tiles_loop_app json_path tile_idx pre rest m :
  Forall (λ t, tile_raises t = false) pre →
  tiles_loop json_path tile_idx (pre ++ rest) m =
  ((tiles_loop json_path (tile_idx + length pre) rest
      (tiles_loop json_path tile_idx pre m).1).1,
   (tiles_loop json_path tile_idx pre m).2
   ++ (tiles_loop json_path (tile_idx + length pre) rest
         (tiles_loop json_path tile_idx pre m).1).2).
Proof.
  intros Hpre. revert tile_idx m.
  induction Hpre as [|t pre Ht _ IH]; intros i m.
  - simpl. rewrite Nat.add_0_r. by destruct (tiles_loop _ _ _ _).
  - rewrite <- app_comm_cons, !tiles_loop_cons.
    pose proof (process_tile_cases json_path i t m) as Hc.
    destruct (process_tile json_path i t m) as [m' out|]; [|congruence].
    rewrite IH. simpl.
    replace (i + S (length pre))%nat with (S i + length pre)%nat by lia.
    by rewrite app_assoc.
Qed.

Lemma tiles_loop_stops json_path pre bad post :
  Forall (λ t, tile_raises t = false) pre → tile_raises bad = true →
  tiles_loop json_path 1 (pre ++ bad :: post) ∅ =
  ((tiles_loop json_path 1 pre ∅).1,
   (tiles_loop json_path 1 pre ∅).2 ++ [ErrFailed json_path]).
Proof.
  intros Hpre Hbad. rewrite tiles_loop_app by done. rewrite tiles_loop_cons.
  pose proof (process_tile_cases json_path (1 + length pre) bad
                (tiles_loop json_path 1 pre ∅).1) as Hc.
  destruct (process_tile _ _ bad _) as [m' out|]; [|done].
  destruct Hc. congruence.
Qed.

(** A tile at which an exception is raised (a tile that is no [dict], or
    one with an invalid [coord] whose warning cannot be printed) ends the
    extraction of its file: the result is what the document cut before
    that tile gives, with one error message added, or the empty mapping
    and that message alone when it is the first tile; the tiles after it
    are never looked at. *)
Theorem extraction_stops_at_first_exception
    (json_path : pystr) (data : list (pystr * json)) (pre post : list json)
    (bad : json) :
  printable json_path = true →
  dict_get data (py "tiles") = Some (JList (pre ++ bad :: post)) →
  Forall (λ t, tile_raises t = false) pre →
  tile_raises bad = true →
  (pre = [] →
   extract_location_coords_from_json json_path (Loaded (JObj data))
   = (∅, [ErrFailed json_path]))
  ∧ (pre ≠ [] →
     extract_location_coords_from_json json_path (Loaded (JObj data))
     = ((extract_location_coords_from_json json_path (document pre)).1,
        (extract_location_coords_from_json json_path (document pre)).2
        ++ [ErrFailed json_path])).
Proof.
  intros _ Htiles Hpre Hbad.
  assert (extract_location_coords_from_json json_path (Loaded (JObj data))
          = ((tiles_loop json_path 1 pre ∅).1,
             (tiles_loop json_path 1 pre ∅).2 ++ [ErrFailed json_path]))
    as Hstop.
  { destruct (extract_cases json_path (Loaded (JObj data)))
      as [[_ ->]|[Hnil _]].
    - simpl. rewrite Htiles. simpl. by apply tiles_loop_stops.
    - simpl in Hnil. rewrite Htiles in Hnil. simpl in Hnil. by destruct pre. }
  split.
  - intros ->. exact Hstop.
  - intros Hne. rewrite Hstop.
    destruct (extract_cases json_path (document pre)) as [[_ ->]|[Hnil _]].
    + done.
    + by destruct pre.
Qed.

Lemma extraction_stops_at_first_exception_witness :
  extract_location_coords_from_json (py "map.json")
    (document [tile_abc; tile_unprintable_coord; tile_bool]) =
  ((extract_location_coords_from_json (py "map.json")
      (document [tile_abc])).1,
   (extract_location_coords_from_json (py "map.json")
      (document [tile_abc])).2 ++ [ErrFailed (py "map.json")]).
Proof.
  unfold document at 1.
  apply (extraction_stops_at_first_exception (py "map.json")
           [(py "tiles",
             JList [tile_abc; tile_unprintable_coord; tile_bool])]
           [tile_abc] [tile_bool] tile_unprintable_coord);
    [reflexivity|reflexivity|by repeat constructor|reflexivity|done].
Defined.

Lemma has_coord_is_Some (m : LocationCoordDict) (p : pystr) (c : coordinate) :
  has_coord m p c = true → is_Some (m !! p).
Proof. unfold has_coord. by destruct (m !! p). Qed.

(** The paths of the mapping extracted from a file are exactly the prefix
    paths of the tiles the loop reaches (those before the first tile at
    which an exception is raised) that pass both validations; so the
    mapping is empty exactly when no reached tile passes both. *)
Theorem extracted_paths_exact (json_path : pystr) (file : file_content) :
  printable json_path = true →
  let result := (extract_location_coords_from_json json_path file).1 in
  (∀ p, is_Some (result !! p) ↔
        ∃ tile c, tile ∈ visited_tiles file ∧ tile_attributes tile p c)
  ∧ (result = ∅ ↔
     ∀ tile, tile ∈ visited_tiles file →
       as_coord (coord_field tile) = None
       ∨ as_address (address_field tile) = None).
Proof.
  intros _ result.
  assert (∀ p, is_Some (result !! p) ↔
               ∃ tile c, tile ∈ visited_tiles file ∧ tile_attributes tile p c)
    as Hpaths.
  { intros p. split.
    - intros [cs Hp].
      destruct (extract_ok json_path file p cs Hp) as (Hne & _ & Hobs).
      destruct cs as [|c cs]; [done|].
      apply Forall_cons in Hobs as [(tile & Htile & Hattr) _]. by exists tile, c.
    - intros (tile & c & Htile & Hattr).
      apply has_coord_is_Some with c. by apply has_coord_extract with tile. }
  split; [done|]. split.
  - intros Hempty tile Htile.
    destruct (as_coord (coord_field tile)) as [c|] eqn:Hc; [|by left].
    destruct (as_address (address_field tile)) as [a|] eqn:Ha; [|by right].
    assert (a ≠ []) as Hne.
    { destruct (address_field tile) as [| | | | |l|]; simpl in Ha; try done.
      case_bool_decide as Hlen; [done|]. apply length_mapM in Ha.
      intros ->. by destruct l. }
    assert (is_Some (result !! prefix_path a 1)) as [cs Hp].
    { apply Hpaths. exists tile, c. split; [done|]. exists a, 1%nat.
      split; [done|]. split; [done|]. split; [|done].
      destruct a; simpl; [done|lia]. }
    by rewrite Hempty, lookup_empty in Hp.
  - intros Hnone. apply map_empty. intros p.
    apply eq_None_not_Some. rewrite Hpaths.
    intros (tile & c & Htile & a & k & Hc & Ha & _).
    destruct (Hnone tile Htile); congruence.
Qed.

Lemma extracted_paths_exact_witness :
  (extract_location_coords_from_json (py "map.json")
     (document [tile_no_address; tile_bad_coord])).1 = ∅.
Proof.
  apply (proj2 (extracted_paths_exact (py "map.json")
                  (document [tile_no_address; tile_bad_coord])
                  ltac:(reflexivity))).
  intros t Ht. simpl in Ht.
  apply elem_of_cons in Ht as [->|Ht]; [by right|].
  apply list_elem_of_singleton in Ht as ->. by left.
Defined.

Lemma as_coord_length coord c : as_coord coord = Some c → length c = 2%nat.
Proof.
  destruct coord as [| | | | |cs|]; simpl; try done.
  case_bool_decide as Hlen; [|done]. intros Hc%length_mapM. congruence.
Qed.

Lemma as_coord_coord_json c :
  length c = 2%nat → as_coord (coord_json c) = Some c.
Proof.
  intros Hlen. unfold as_coord, coord_json. rewrite length_fmap.
  rewrite bool_decide_eq_true_2 by done. apply mapM_Some.
  clear Hlen. induction c as [|i c IH]; [constructor|].
  cbn [fmap list_fmap]. constructor; [by destruct i|exact IH].
Qed.

(** Every coordinate stored in the merged result has exactly two
    components, and written out as JSON it passes the validation of line
    28 again and is read back as itself. *)
Theorem stored_coordinates_are_pairs
    (entries : list walk_entry) (p : pystr) (cs : list coordinate)
    (c : coordinate) :
  (merge_all_location_coords entries).1.1 !! p = Some cs → c ∈ cs →
  length c = 2%nat ∧ as_coord (coord_json c) = Some c.
Proof.
  intros Hp Hc.
  destruct (merged_entries_ok entries p cs Hp) as (_ & _ & Hobs).
  rewrite Forall_forall in Hobs.
  destruct (Hobs c Hc) as (e & tile & _ & _ & a & k & Hcoord & _).
  apply as_coord_length in Hcoord as Hlen.
  split; [done|]. by apply as_coord_coord_json.
Qed.

Lemma stored_coordinates_are_pairs_witness :
  length [PInt 3; PInt 4] = 2%nat
  ∧ as_coord (coord_json [PInt 3; PInt 4]) = Some [PInt 3; PInt 4].
Proof.
  apply (stored_coordinates_are_pairs two_files (py "A")
           [[PInt 1; PInt 2]; [PInt 3; PInt 4]]).
  - vm_compute. reflexivity.
  - right. left.
Defined.

(** A coordinate found under a path is found under every ancestor of that
    path as well: it was attributed by a tile to a prefix of its address,
    and every shorter prefix of that address holds it too. *)
Theorem coordinates_reach_ancestors
    (entries : list walk_entry) (p : pystr) (cs : list coordinate)
    (c : coordinate) :
  let merged := (merge_all_location_coords entries).1.1 in
  merged !! p = Some cs → c ∈ cs →
  ∃ a k, (1 ≤ k ≤ length a)%nat ∧ p = prefix_path a k
       ∧ ∀ k', (1 ≤ k' ≤ k)%nat →
           ∃ cs', merged !! prefix_path a k' = Some cs'
                ∧ coord_in c cs' = true.
Proof.
  intros merged Hp Hc.
  destruct (merged_entries_ok entries p cs Hp) as (_ & _ & Hobs).
  rewrite Forall_forall in Hobs.
  destruct (Hobs c Hc) as (e & tile & He & Htile & a & k & Hcoord & Haddr & Hk & ->).
  exists a, k. split; [done|]. split; [done|]. intros k' Hk'.
  assert (has_coord merged (prefix_path a k') c = true) as Hhas.
  { apply (has_coord_merged entries e tile); [done|done|].
    exists a, k'. split; [done|]. split; [done|]. split; [lia|done]. }
  unfold has_coord in Hhas.
  destruct (merged !! prefix_path a k') as [cs'|]; [|done]. by exists cs'.
Qed.

Lemma coordinates_reach_ancestors_witness :
  ∃ a k, (1 ≤ k ≤ length a)%nat ∧ py "A->B->C" = prefix_path a k
       ∧ ∀ k', (1 ≤ k' ≤ k)%nat →
           ∃ cs', (merge_all_location_coords two_files).1.1
                    !! prefix_path a k' = Some cs'
                ∧ coord_in [PInt 1; PInt 2] cs' = true.
Proof.
  apply (coordinates_reach_ancestors two_files (py "A->B->C")
           [[PInt 1; PInt 2]]).
  - vm_compute. reflexivity.
  - left.
Defined.

Lemma append_new_extends existing c :
  ∃ extra, append_new existing c = existing ++ extra.
Proof.
  unfold append_new. destruct (coord_in c existing).
  - exists []. by rewrite app_nil_r.
  - by exists [c].
Qed.

Lemma address_loop_extends (c : coordinate) (cp a : list pystr)
    (m : LocationCoordDict) (p : pystr) (cs : list coordinate) :
  m !! p = Some cs →
  ∃ extra, address_loop c cp a m !! p = Some (cs ++ extra).
Proof.
  intros Hp. rewrite address_loop_lookup, Hp. simpl.
  destruct (decide _); [|exists []; by rewrite app_nil_r].
  destruct (append_new_extends cs c) as [extra ->]. by exists extra.
Qed.

Lemma tiles_loop_extends (json_path : pystr) (tile_idx : nat)
    (tiles : list json) (m : LocationCoordDict) (p : pystr)
    (cs : list coordinate) :
  m !! p = Some cs →
  ∃ extra, (tiles_loop json_path tile_idx tiles m).1 !! p = Some (cs ++ extra).
Proof.
  revert tile_idx m cs. induction tiles as [|t rest IH]; intros i m cs Hp.
  - exists []. by rewrite app_nil_r.
  - rewrite tiles_loop_cons.
    pose proof (process_tile_cases json_path i t m) as Hc.
    destruct (process_tile json_path i t m) as [m' out|];
      [|exists []; by rewrite app_nil_r].
    simpl. destruct Hc as [_ Hc].
    assert (∃ extra, m' !! p = Some (cs ++ extra)) as [extra1 Hp1].
    { destruct (as_coord (coord_field t)) as [c|];
        [destruct (as_address (address_field t)) as [a|]|];
        destruct Hc as [-> _];
        try (exists []; by rewrite app_nil_r).
      by apply address_loop_extends. }
    destruct (IH (S i) m' _ Hp1) as [extra2 ->].
    exists (extra1 ++ extra2). by rewrite app_assoc.
Qed.

Lemma tiles_loop_app_extends (json_path : pystr) (tile_idx : nat)
    (pre rest : list json) (m : LocationCoordDict) (p : pystr)
    (cs : list coordinate) :
  (tiles_loop json_path tile_idx pre m).1 !! p = Some cs →
  ∃ extra,
    (tiles_loop json_path tile_idx (pre ++ rest) m).1 !! p = Some (cs ++ extra).
Proof.
  revert tile_idx m. induction pre as [|t pre IH]; intros i m Hp.
  - by apply tiles_loop_extends.
  - rewrite <- app_comm_cons, tiles_loop_cons. rewrite tiles_loop_cons in Hp.
    destruct (process_tile json_path i t m) as [m' out|].
    + simpl in *. by apply IH.
    + exists []. by rewrite app_nil_r.
Qed.

(** Tiles added at the end of a document only add to what the document
    gave before: the list of every path already extracted stays as the
    beginning of its list. *)
Theorem later_tiles_only_append
    (json_path : pystr) (file longer : file_content) (more : list json)
    (p : pystr) (cs : list coordinate) :
  file_tiles longer = file_tiles file ++ more →
  (extract_location_coords_from_json json_path file).1 !! p = Some cs →
  ∃ extra,
    (extract_location_coords_from_json json_path longer).1 !! p
    = Some (cs ++ extra).
Proof.
  intros Htiles. rewrite !extract_result, Htiles.
  apply tiles_loop_app_extends.
Qed.

Lemma later_tiles_only_append_witness :
  ∃ extra,
    (extract_location_coords_from_json (py "map.json")
       (document [tile_abc; tile (JList [JInt 3; JInt 4]) [JStr (py "A")]])).1
      !! py "A"
    = Some ([[PInt 1; PInt 2]] ++ extra).
Proof.
  apply (later_tiles_only_append (py "map.json") (document [tile_abc]) _
           [tile (JList [JInt 3; JInt 4]) [JStr (py "A")]]);
    reflexivity.
Defined.

(** ** The scan of the tree *)

Lemma walk_loop_json_files entries all n :
  walk_loop entries all n = walk_loop (json_files entries) all n.
Proof.
  unfold json_files. revert all n.
  induction entries as [|e rest IH]; intros all n; [done|].
  rewrite filter_cons. cbn [walk_loop].
  destruct (endswith (py ".json") (filename e)) eqn:Hjson.
  - rewrite decide_True by done. cbn [walk_loop]. rewrite Hjson.
    destruct (extract_location_coords_from_json _ _) as [f out].
    by rewrite IH.
  - rewrite decide_False by done. apply IH.
Qed.

Lemma walk_loop_count entries all n :
  (walk_loop entries all n).1.2 = (n + length (json_files entries))%nat.
Proof.
  unfold json_files. revert all n.
  induction entries as [|e rest IH]; intros all n; [simpl; lia|].
  rewrite filter_cons. cbn [walk_loop].
  destruct (endswith (py ".json") (filename e)) eqn:Hjson.
  - rewrite decide_True by done.
    destruct (extract_location_coords_from_json _ _) as [f out].
    specialize (IH (merge_file f all) (S n)).
    destruct (walk_loop rest (merge_file f all) (S n)) as [[r k] out'].
    simpl in *. lia.
  - rewrite decide_False by done. apply IH.
Qed.



Lemma scan_count_aux entries :
  merge_all_location_coords entries
  = merge_all_location_coords (json_files entries)
  ∧ (merge_all_location_coords entries).1.2 = length (json_files entries).
Proof.
  unfold merge_all_location_coords. split.
  - apply walk_loop_json_files.
  - by rewrite walk_loop_count.
Qed.


Lemma file_mappings_app entries1 entries2 :
  file_mappings (entries1 ++ entries2)
  = file_mappings entries1 ++ file_mappings entries2.
Proof. unfold file_mappings, json_files. by rewrite filter_app, fmap_app. Qed.

Lemma merged_app entries1 entries2 :
  (merge_all_location_coords (entries1 ++ entries2)).1.1 =
  foldl merge_step (merge_all_location_coords entries1).1.1
    (file_mappings entries2).
Proof.
  rewrite !merge_all_result. unfold merge_mappings.
  by rewrite file_mappings_app, foldl_app.
Qed.



Lemma merge_coords_prefix existing coords :
  ∃ extra, merge_coords existing coords = existing ++ extra.
Proof.
  unfold merge_coords. revert existing.
  induction coords as [|c coords IH]; simpl; intros existing.
  - exists []. by rewrite app_nil_r.
  - destruct (append_new_extends existing c) as [extra1 ->].
    destruct (IH (existing ++ extra1)) as [extra2 ->].
    exists (extra1 ++ extra2). by rewrite app_assoc.
Qed.

Lemma foldl_merge_prefix (fs : list LocationCoordDict)
    (all : LocationCoordDict) (p : pystr) (cs : list coordinate) :
  all !! p = Some cs →
  ∃ extra, foldl merge_step all fs !! p = Some (cs ++ extra).
Proof.
  revert all cs. induction fs as [|f fs IH]; simpl; intros all cs Hp.
  - exists []. by rewrite app_nil_r.
  - assert (∃ extra, merge_step all f !! p = Some (cs ++ extra))
      as [extra1 Hp1].
    { unfold merge_step. rewrite merge_file_lookup.
      destruct (f !! p) as [cs'|]; rewrite Hp; simpl.
      - destruct (merge_coords_prefix cs cs') as [extra ->]. by exists extra.
      - exists []. by rewrite app_nil_r. }
    destruct (IH _ _ Hp1) as [extra2 ->].
    exists (extra1 ++ extra2). by rewrite app_assoc.
Qed.

(** Visiting more files never removes a path or a coordinate and never
    reorders what is there: the list of every path already present stays
    as the beginning of its list in the larger result. *)
Theorem later_files_only_append
    (entries more : list walk_entry) (p : pystr) (cs : list coordinate) :
  (merge_all_location_coords entries).1.1 !! p = Some cs →
  ∃ extra,
    (merge_all_location_coords (entries ++ more)).1.1 !! p
    = Some (cs ++ extra).
Proof. intros Hp. rewrite merged_app. by apply foldl_merge_prefix. Qed.

Lemma later_files_only_append_witness :
  ∃ extra,
    (merge_all_location_coords ([file_a] ++ [file_b])).1.1 !! py "A"
    = Some ([[PInt 1; PInt 2]] ++ extra).
Proof.
  apply (later_files_only_append [file_a] [file_b] (py "A")).
  vm_compute. reflexivity.
Defined.

Lemma merge_coords_known existing coords :
  Forall (λ c, coord_in c existing = true) coords →
  merge_coords existing coords = existing.
Proof.
  unfold merge_coords. induction 1 as [|c coords Hc _ IH]; simpl; [done|].
  unfold append_new at 2. by rewrite Hc.
Qed.

Lemma merge_file_known (f all : LocationCoordDict) :
  (∀ p cs, f !! p = Some cs →
     ∃ existing, all !! p = Some existing
               ∧ Forall (λ c, coord_in c existing = true) cs) →
  merge_file f all = all.
Proof.
  intros Hknown. apply map_eq. intros p. rewrite merge_file_lookup.
  destruct (f !! p) as [cs|] eqn:Hp; [|done].
  destruct (Hknown p cs Hp) as (existing & -> & Hall). simpl.
  by rewrite merge_coords_known.
Qed.

(** Meeting a file a second time changes nothing: after a scan that has
    read a [.json] file, reading the same file again leaves the merged
    mapping as it is. *)
Theorem rereading_a_file_changes_nothing
    (entries : list walk_entry) (e : walk_entry) :
  e ∈ json_files entries →
  (merge_all_location_coords (entries ++ [e])).1.1
  = (merge_all_location_coords entries).1.1.
Proof.
  intros He. rewrite merged_app.
  unfold file_mappings at 1, json_files.
  apply list_elem_of_filter in He as Hjson. destruct Hjson as [Hjson _].
  rewrite filter_cons, decide_True by done. simpl. unfold merge_step.
  set (f := (extract_location_coords_from_json
               (path_join (root e) (filename e)) (content e)).1).
  assert (f ∈ file_mappings entries) as Hf.
  { unfold file_mappings.
    by apply (list_elem_of_fmap_2
                (λ e, (extract_location_coords_from_json
                         (path_join (root e) (filename e)) (content e)).1)). }
  apply merge_file_known. intros p cs Hp.
  assert (is_Some ((merge_all_location_coords entries).1.1 !! p))
    as [existing Hex].
  { rewrite merge_all_result. unfold merge_mappings.
    apply foldl_merge_is_Some. right. exists f. by rewrite Hp. }
  exists existing. split; [done|]. apply Forall_forall. intros c Hc.
  assert (has_coord (merge_all_location_coords entries).1.1 p c = true)
    as Hhas.
  { rewrite merge_all_result. unfold merge_mappings.
    rewrite has_coord_foldl_merge. simpl.
    apply existsb_elem_of with f; [done|].
    unfold has_coord. rewrite Hp. by apply coord_in_elem_of. }
  unfold has_coord in Hhas. by rewrite Hex in Hhas.
Qed.

Lemma rereading_a_file_changes_nothing_witness :
  (merge_all_location_coords (two_files ++ [file_a])).1.1
  = (merge_all_location_coords two_files).1.1.
Proof.
  apply rereading_a_file_changes_nothing.
  apply (list_elem_of_lookup_2 _ 0). reflexivity.
Defined.




(** ** Paths and their levels *)

Lemma startswith_arrow (s : pystr) :
  startswith arrow s = true ↔ ∃ r, s = 45 :: 62 :: r.
Proof.
  change arrow with [45; 62]. destruct s as [|c [|d r]]; cbn [startswith].
  - split; [done|]. by intros [r ?].
  - rewrite andb_false_r. split; [done|]. by intros [r ?].
  - rewrite andb_true_r, andb_true_iff, !N.eqb_eq. split.
    + intros [<- <-]. by exists r.
    + intros [r' [= <- <- _]]. done.
Qed.

Lemma split_aux_match cur c s :
  startswith arrow (c :: s) = true →
  split_aux arrow 0 cur (c :: s) = rev cur :: split_aux arrow 1 [] s.
Proof. intros H. cbn [split_aux]. by rewrite H. Qed.

Lemma split_aux_no_match cur c s :
  startswith arrow (c :: s) = false →
  split_aux arrow 0 cur (c :: s) = split_aux arrow 0 (c :: cur) s.
Proof. intros H. cbn [split_aux]. by rewrite H. Qed.

Lemma split_aux_skip cur c s :
  split_aux arrow 1 cur (c :: s) = split_aux arrow 0 cur s.
Proof. done. Qed.

(** The pieces of [left ++ "->" ++ right] are as many as those of [left]
    and those of [right] together: the delimiter put between them is
    found, and it hides no other occurrence. *)
Lemma levels_app_arrow left right :
  levels (left ++ arrow ++ right) = (levels left + levels right)%nat.
Proof.
  unfold levels, split.
  assert (∀ s,
    (∀ cur, length (split_aux arrow 0 cur (s ++ arrow ++ right)) =
            (length (split_aux arrow 0 cur s)
             + length (split_aux arrow 0 [] right))%nat)
    ∧ (∀ cur, s ≠ [] →
         length (split_aux arrow 1 cur (s ++ arrow ++ right)) =
         (length (split_aux arrow 1 cur s)
          + length (split_aux arrow 0 [] right))%nat)) as Hboth.
  { induction s as [|c s [IH0 IH1]].
    - split; [|done]. intros cur.
      change ([] ++ arrow ++ right) with (45 :: 62 :: right).
      rewrite split_aux_match by (apply startswith_arrow; eauto).
      rewrite split_aux_skip. done.
    - split.
      + intros cur. rewrite <- app_comm_cons.
        destruct (startswith arrow (c :: s)) eqn:Hm.
        * apply startswith_arrow in Hm as Hs. destruct Hs as [r [= -> ->]].
          rewrite (split_aux_match cur 45 (62 :: r)) by done.
          rewrite split_aux_match by (apply startswith_arrow; eauto).
          cbn [length]. by rewrite IH1.
        * rewrite (split_aux_no_match cur c s) by done.
          rewrite split_aux_no_match; [apply IH0|].
          destruct (startswith arrow (c :: s ++ arrow ++ right)) eqn:Hm';
            [|done].
          apply startswith_arrow in Hm' as [r Hr].
          destruct s as [|d s].
          -- by injection Hr.
          -- injection Hr as -> -> _.
             enough (startswith arrow (45 :: 62 :: s) = true) by congruence.
             apply startswith_arrow. eauto.
      + intros cur _. rewrite <- app_comm_cons, !split_aux_skip. apply IH0. }
  apply Hboth.
Qed.

Lemma split_aux_nonempty sep skip cur s :
  (1 ≤ length (split_aux sep skip cur s))%nat.
Proof.
  revert skip cur. induction s as [|c s IH]; intros skip cur; [simpl; lia|].
  cbn [split_aux]. destruct skip; [|apply IH].
  destruct (startswith sep (c :: s)); [simpl; lia|apply IH].
Qed.

Lemma levels_positive x : (1 ≤ levels x)%nat.
Proof. apply split_aux_nonempty. Qed.

Lemma join_snoc sep (parts : list pystr) (x : pystr) :
  parts ≠ [] → join sep (parts ++ [x]) = join sep parts ++ sep ++ x.
Proof.
  induction parts as [|p [|q parts] IH]; intros Hne; [done|done|].
  specialize (IH ltac:(done)). cbn [join app] in *.
  rewrite IH. by rewrite <- !app_assoc.
Qed.

Lemma levels_prefix_path_S a k level :
  (1 ≤ k)%nat → a !! k = Some level →
  levels (prefix_path a (S k))
  = (levels (prefix_path a k) + levels (strip level))%nat.
Proof.
  intros Hk Hlevel. unfold prefix_path.
  rewrite (take_S_r _ _ _ Hlevel), fmap_app. simpl.
  rewrite join_snoc; [apply levels_app_arrow|].
  destruct a; [done|]. destruct k; [lia|done].
Qed.

Lemma levels_prefix_path_lt a k k' :
  (1 ≤ k < k')%nat → (k' ≤ length a)%nat →
  (levels (prefix_path a k) < levels (prefix_path a k'))%nat.
Proof.
  intros [Hk Hlt]. induction Hlt as [|k' Hle IH]; intros Hlen.
  - destruct (lookup_lt_is_Some_2 a k ltac:(lia)) as [level Hlevel].
    rewrite (levels_prefix_path_S a k level) by done.
    pose proof (levels_positive (strip level)). lia.
  - destruct (lookup_lt_is_Some_2 a k' ltac:(lia)) as [level Hlevel].
    rewrite (levels_prefix_path_S a k' level) by (done || lia).
    specialize (IH ltac:(lia)). lia.
Qed.

Lemma StronglySorted_lookup_le {A} (R : relation A) (l : list A) i j x y :
  StronglySorted R l → l !! i = Some x → l !! j = Some y → (i < j)%nat →
  R x y.
Proof.
  intros Hl. revert i j. induction Hl as [|z l _ IH Hz]; intros i j Hi Hj Hij.
  - done.
  - destruct j as [|j]; [lia|]. simpl in Hj. destruct i as [|i]; simpl in Hi.
    + injection Hi as ->. rewrite Forall_forall in Hz.
      apply Hz. by apply list_elem_of_lookup_2 with j.
    + apply (IH i j); [done|done|lia].
Qed.

(** In the printed and the saved output a location comes before every
    location below it: the path of a shorter prefix of an address has fewer
    levels than the path of a longer prefix of the same address, whatever
    the level names contain, so it is sorted to an earlier position. *)
Theorem parents_listed_before_children
    (location_coords : LocationCoordDict) (a : list pystr) (k k' i j : nat) :
  (1 ≤ k < k')%nat → (k' ≤ length a)%nat →
  sorted_paths location_coords !! i = Some (prefix_path a k) →
  sorted_paths location_coords !! j = Some (prefix_path a k') →
  (levels (prefix_path a k) < levels (prefix_path a k'))%nat ∧ (i < j)%nat.
Proof.
  intros Hk Hk' Hi Hj.
  pose proof (levels_prefix_path_lt a k k' Hk Hk') as Hlt.
  split; [done|].
  destruct (lt_eq_lt_dec i j) as [[?|Hij]|Hji]; [done| |].
  - subst j. rewrite Hi in Hj. injection Hj as Heq. rewrite Heq in Hlt. lia.
  - assert (path_le (prefix_path a k') (prefix_path a k)) as Hle.
    { apply (StronglySorted_lookup_le path_le (sorted_paths location_coords) j i);
        [|done|done|done].
      apply (StronglySorted_merge_sort path_le). }
    apply path_le_levels in Hle. unfold levels in Hlt. lia.
Qed.

Lemma parents_listed_before_children_witness :
  (levels (prefix_path [py "A"; py "Z"] 1)
   < levels (prefix_path [py "A"; py "Z"] 2))%nat ∧ (0 < 3)%nat.
Proof.
  apply (parents_listed_before_children mapping_family [py "A"; py "Z"] 1 2);
    [lia|simpl; lia|reflexivity|reflexivity].
Defined.

Lemma startswith_arrow_before_arrow c s t :
  startswith arrow (c :: s) = false →
  startswith arrow (c :: s ++ arrow ++ t) = false.
Proof.
  intros Hm. destruct (startswith arrow (c :: s ++ arrow ++ t)) eqn:Hm'; [|done].
  apply startswith_arrow in Hm' as [r Hr]. destruct s as [|d s].
  - by injection Hr.
  - injection Hr as -> -> _.
    enough (startswith arrow (45 :: 62 :: s) = true) by congruence.
    apply startswith_arrow. eauto.
Qed.

Lemma split_aux_last cur e :
  contains arrow e = false → split_aux arrow 0 cur e = [rev cur ++ e].
Proof.
  revert cur. induction e as [|c e IH]; intros cur Hfree.
  - simpl. by rewrite app_nil_r.
  - cbn [contains] in Hfree. apply orb_false_iff in Hfree as [Hm Hfree].
    rewrite split_aux_no_match, IH by done. simpl. by rewrite <- app_assoc.
Qed.

Lemma split_aux_piece cur e rest :
  contains arrow e = false →
  split_aux arrow 0 cur (e ++ arrow ++ rest)
  = (rev cur ++ e) :: split_aux arrow 0 [] rest.
Proof.
  revert cur. induction e as [|c e IH]; intros cur Hfree.
  - change ([] ++ arrow ++ rest) with (45 :: 62 :: rest).
    rewrite split_aux_match by (apply startswith_arrow; eauto).
    by rewrite split_aux_skip, app_nil_r.
  - cbn [contains] in Hfree. apply orb_false_iff in Hfree as [Hm Hfree].
    rewrite <- app_comm_cons.
    rewrite split_aux_no_match by (by apply startswith_arrow_before_arrow).
    rewrite IH by done. simpl. by rewrite <- app_assoc.
Qed.

Lemma split_join_parts (parts : list pystr) :
  parts ≠ [] → Forall (λ p, contains arrow p = false) parts →
  split arrow (join arrow parts) = parts.
Proof.
  intros Hne Hfree. unfold split.
  induction Hfree as [|p parts Hp Hfree IH]; [done|].
  destruct parts as [|q parts].
  - simpl. by rewrite split_aux_last.
  - cbn [join]. rewrite split_aux_piece by done. simpl. f_equal.
    by apply IH.
Qed.

(** Splitting a joined path gives back its levels, as long as there is at
    least one level and no level contains ["->"]. *)
Theorem split_join_round_trip (parts : list pystr) :
  parts ≠ [] → Forall (λ p, contains arrow p = false) parts →
  split arrow (join arrow parts) = parts.
Proof. apply split_join_parts. Qed.

Lemma split_join_round_trip_witness :
  split arrow (join arrow [py "A"; py "B-"; py ">C"])
  = [py "A"; py "B-"; py ">C"].
Proof.
  apply split_join_round_trip; [done|]. by repeat constructor.
Defined.

(** The sort key counts as many levels as the prefix has, when no stripped
    level of the address contains ["->"]; a level that does contain it
    makes the count larger. *)
Theorem levels_of_prefix_path (a : list pystr) (k : nat) :
  (1 ≤ k ≤ length a)%nat →
  (Forall (λ level, contains arrow (strip level) = false) a →
   (sort_key (prefix_path a k)).1 = k)
  ∧ (k ≤ (sort_key (prefix_path a k)).1)%nat.
Proof.
  intros Hk. split.
  - intros Hfree. simpl. unfold prefix_path. rewrite split_join_parts.
    + rewrite length_fmap, length_take. lia.
    + destruct a; [simpl in Hk; lia|]. destruct k; [lia|done].
    + apply Forall_fmap. by apply Forall_take.
  - simpl. fold (levels (prefix_path a k)). destruct Hk as [Hk Hlen].
    induction Hk as [|k Hk IH].
    + apply levels_positive.
    + destruct (lookup_lt_is_Some_2 a k ltac:(lia)) as [level Hlevel].
      rewrite (levels_prefix_path_S a k level) by done.
      pose proof (levels_positive (strip level)).
      specialize (IH ltac:(lia)). lia.
Qed.

Lemma levels_of_prefix_path_witness :
  (sort_key (prefix_path [py " A "; py "B"; py "C"] 2)).1 = 2%nat
  ∧ (2 ≤ (sort_key (prefix_path [py " A "; py "B"; py "C"] 2)).1)%nat.
Proof.
  destruct (levels_of_prefix_path [py " A "; py "B"; py "C"] 2) as [Heq Hle];
    [simpl; lia|].
  split; [apply Heq; by repeat constructor|exact Hle].
Defined.

(** ** The script body *)

Lemma sum_lengths_ge {A} (l : list (pystr * list A)) :
  Forall (λ kv, kv.2 ≠ []) l →
  (length l ≤ sum_list_with (λ kv, length kv.2) l)%nat.
Proof.
  induction 1 as [|[p cs] l Hne _ IH]; simpl; [done|].
  destruct cs; [done|]. simpl in *. lia.
Qed.

(** A run of the script body exits at once when the root directory is
    missing. Otherwise it reaches its last line exactly when every
    [.json] path and every merged location path can be printed and, if
    anything was extracted, the output can be written; in every other case
    an exception that nothing catches ends it. A run that reaches its last
    line reports the number of [.json] files met, has written the output
    file exactly when some path was extracted, with one item per location
    counted, and reports at least as many coordinates as locations. *)
Theorem run_statistics (env : run_env) (entries : list walk_entry) :
  let merged := (merge_all_location_coords entries).1.1 in
  (root_exists env = false → gen_addr_map_main env entries = Exit1)
  ∧ ((∃ r, gen_addr_map_main env entries = Finished r) ↔
     root_exists env = true ∧ scan_returns entries = true
     ∧ forallb printable (sorted_paths merged) = true
     ∧ (merged = ∅ ∨ save_ok env = true))
  ∧ (root_exists env = true →
     (¬ ∃ r, gen_addr_map_main env entries = Finished r) →
     gen_addr_map_main env entries = Crashed)
  ∧ (∀ r, gen_addr_map_main env entries = Finished r →
       processed_files r = length (json_files entries)
       ∧ total_locations r = size merged
       ∧ (total_locations r ≤ total_coords r)%nat
       ∧ (saved r = None ↔ total_locations r = 0%nat)
       ∧ (∀ out, saved r = Some out →
            length out = total_locations r
            ∧ sum_list_with (λ kv, length kv.2) out = total_coords r
            ∧ out = save_location_coords_to_json merged)).
Proof.
  intros merged. unfold gen_addr_map_main.
  pose proof (merged_entries_ok entries) as Hok.
  pose proof (proj2 (scan_count_aux entries)) as Hcount.
  fold merged in Hok. unfold merged in *. clear merged.
  destruct (merge_all_location_coords entries) as [[all processed] out].
  simpl in Hok, Hcount. simpl.
  destruct (root_exists env) eqn:Hroot; simpl.
  2:{ split_and!; try done.
      split; [by intros [? ?]|]. by intros [? _]. }
  destruct (scan_returns entries) eqn:Hscan; simpl.
  2:{ split_and!; try done.
      split; [by intros [? ?]|]. by intros (_ & ? & _). }
  destruct (forallb printable (sorted_paths all)) eqn:Hprint; simpl.
  2:{ split_and!; try done.
      split; [by intros [? ?]|]. by intros (_ & _ & ? & _). }
  assert (size all ≤ sum_list_with (λ kv, length kv.2) (map_to_list all))%nat
    as Hle.
  { rewrite <- length_map_to_list. apply sum_lengths_ge.
    apply Forall_forall. intros [p cs] Hin%elem_of_map_to_list. simpl.
    by destruct (Hok p cs Hin). }
  case_bool_decide as Hempty.
  - split_and!; [done| |by intros _ []; eauto|].
    + split; [intros _; split_and!; auto|by eauto].
    + intros r [= <-]. simpl. split_and!; try done.
      split; [|done]. intros _. by rewrite Hempty, map_size_empty.
  - destruct (save_ok env) eqn:Hsave.
    + split_and!; [done| |by intros _ []; eauto|].
      * split; [intros _; split_and!; auto|by eauto].
      * intros r [= <-]. simpl. split_and!; try done.
        -- split; [done|]. intros Hsize. by apply map_size_empty_inv in Hsize.
        -- intros saved_items [= <-]. unfold save_location_coords_to_json.
           split_and!.
           ++ rewrite <- length_map_to_list.
              apply Permutation_length, merge_sort_Permutation.
           ++ by rewrite merge_sort_Permutation.
           ++ done.
    + split_and!; try done.
      split; [by intros [? ?]|]. by intros (_ & _ & _ & [?|?]).
Qed.

Lemma run_statistics_witness :
  (∃ r, gen_addr_map_main {| root_exists := true; save_ok := true |} two_files
        = Finished r
      ∧ processed_files r = 2%nat ∧ total_locations r = 3%nat
      ∧ (total_locations r ≤ total_coords r)%nat)
  ∧ gen_addr_map_main {| root_exists := true; save_ok := true |}
      [file_unprintable_level] = Crashed.
Proof.
  destruct (run_statistics {| root_exists := true; save_ok := true |} two_files)
    as (_ & Hfinished & _ & Hstats).
  destruct (proj2 Hfinished) as [r Hr].
  { split_and!; [reflexivity|reflexivity|by vm_compute|by right]. }
  split.
  - exists r. split; [exact Hr|].
    destruct (Hstats r Hr) as (Hp & Hl & Hle & _).
    split; [rewrite Hp; reflexivity|].
    split; [rewrite Hl; by vm_compute|exact Hle].
  - destruct (run_statistics {| root_exists := true; save_ok := true |}
                [file_unprintable_level]) as (_ & Hiff & Hcrash & _).
    apply Hcrash; [reflexivity|].
    intros Hfin. apply Hiff in Hfin as (_ & _ & Hprint & _).
    vm_compute in Hprint. done.
Defined.
